(** * EdgeVPN: ledger-coordinated liveness, scrubbing and service tunnels

    A shallow embedding of [pkg/services/alive.go] and
    [pkg/edgevpn/services.go].  The periodic closures handed to
    [Ledger.Announce] and the per-stream handlers are written as programs
    of a small state monad over a [World]: the local ledger snapshot, the
    number of [time.Now()] readings taken so far, and the chronological
    trace of calls made to the ledger, to [utils.Leader] and to the
    network. *)

From stdpp Require Import gmap strings list fin_maps.
From Stdlib Require Import ZArith Lia.

Local Open Scope Z_scope.

(** ** Go's [time] package, as far as the services use it *)

Module time.

(** A [time.Time] carries a wall-clock instant and, when it was obtained
    from [time.Now()], a monotonic-clock reading.  Both are nanosecond
    counts; the wall clock counts from the Unix epoch. *)
Record Time : Type := mkTime { wall : Z; mono : option Z }.

Definition Nanosecond : Z := 1.
Definition Second : Z := 1000000000 * Nanosecond.
Definition Minute : Z := 60 * Second.

(** The zero value [time.Time{}]: January 1, year 1, 00:00:00 UTC, which
    is 62135596800 seconds before the Unix epoch; no monotonic reading. *)
Definition zero : Time := {| wall := - 62135596800 * Second; mono := None |}.

(** [t.Add(d)] moves both readings. *)
Definition Add (t : Time) (d : Z) : Time :=
  {| wall := wall t + d; mono := Z.add d <$> mono t |}.

(** [t.After(u)]: when both values carry a monotonic reading the
    comparison uses those readings alone, otherwise the wall clock. *)
Definition After (t u : Time) : bool :=
  match mono t, mono u with
  | Some a, Some b => bool_decide (b < a)
  | _, _ => bool_decide (wall u < wall t)
  end.

End time.

(** ** Records of [pkg/edgevpn/types] *)

Module types.
Record Service : Type := mkService { PeerID : string; Name : string }.
Record User : Type := mkUser { UPeerID : string; Timestamp : string }.

Global Instance Service_eq_dec : EqDecision Service.
Proof. solve_decision. Defined.
Global Instance User_eq_dec : EqDecision User.
Proof. solve_decision. Defined.
End types.

(** The values the services hand to [Ledger.Add] inside a
    [map[string]interface{}]. *)
Inductive Value : Type :=
| VString (s : string)
| VService (s : types.Service)
| VUser (u : types.User).

Global Instance Value_eq_dec : EqDecision Value.
Proof. solve_decision. Defined.

(** A libp2p stream, identified by a number, knows its remote peer
    ([stream.Conn().RemotePeer().String()]); a local TCP connection is
    identified by a number. *)
Record Stream : Type := mkStream { stream_id : nat; RemotePeer : string }.
Definition Conn : Type := nat.

Global Instance Stream_eq_dec : EqDecision Stream.
Proof. solve_decision. Defined.

(** Either end of a proxied pair. *)
Inductive Endpoint : Type :=
| OfStream (s : Stream)
| OfConn (c : Conn).

Global Instance Endpoint_eq_dec : EqDecision Endpoint.
Proof. solve_decision. Defined.

(** Calls that leave the two source files, in the order they are made. *)
Inductive Event : Type :=
| EvAdd (bucket : string) (entries : gmap string Value)
| EvDeleteBucket (bucket : string)
| EvLeader (nodes : list string)
| EvReset (s : Stream)
| EvDial (addr : string)
| EvNewStream (peer proto : string)
| EvProxy (a b : Endpoint)
| EvClose (x : Endpoint).

Global Instance Event_eq_dec : EqDecision Event.
Proof. solve_decision. Defined.

(** ** What the two files import from elsewhere

    The code under study calls into the ledger's value codec, the standard
    library's timestamp parser and formatter, [utils.Leader], libp2p and
    the operating system.  None of these is defined in the two files, so
    they are taken as an interface. *)
Class External : Type := {
  (** [blockchain.Data], and the zero value [GetKey] returns when the key
      is missing *)
  Data : Type;
  emptyData : Data;
  (** the encoding [Ledger.Add] applies to each value it stores *)
  Marshal : Value → Data;
  (** [d.Unmarshal(&s)] for [s string]: [None] is a decode error, which
      leaves [s] as it was *)
  Unmarshal_string : Data → option string;
  (** [d.Unmarshal(service)]: what the target record holds afterwards (the
      callers drop the returned error) *)
  Unmarshal_Service : Data → types.Service → types.Service;
  (** [time.Parse(time.RFC3339, s)]: the parsed wall-clock instant *)
  Parse_RFC3339 : string → option Z;
  (** [t.Format(time.RFC3339)] and [t.String()] *)
  Format_RFC3339 : time.Time → string;
  Time_String : time.Time → string;
  (** the [n]-th reading of the wall and of the monotonic clock, counted
      over the calls of [time.Now()] *)
  wallclock : nat → Z;
  monoclock : nat → Z;
  (** [utils.Leader] *)
  Leader : list string → string;
  (** [protocol.HealthCheckKey] and [ServiceProtocol] *)
  HealthCheckKey : string;
  ServiceProtocol : string;
  (** [peer.Decode], [net.Dial("tcp", _)] and [host.NewStream] *)
  peer_Decode : string → option string;
  net_Dial : string → option Conn;
  host_NewStream : string → string → option Stream;
  (** whether [net.Listen("tcp", _)] succeeds *)
  net_Listen : string → bool;
}.

Definition ServicesLedgerKey : string := "services".
Definition UsersLedgerKey : string := "users".

Section Services.
Context `{External}.

(** ** The world a closure runs in *)

Record World : Type := mkWorld {
  storage : gmap string (gmap string Data);
  readings : nat;
  trace : list Event;
}.

Definition M (A : Type) : Type := World → A * World.

Global Instance M_ret : MRet M := λ A a w, (a, w).
Global Instance M_bind : MBind M := λ A B k m w, k (m w).1 (m w).2.

Definition emit (e : Event) : M unit :=
  λ w, (tt, {| storage := storage w; readings := readings w;
               trace := trace w ++ [e] |}).

(** The value of the [n]-th call of [time.Now()]. *)
Definition reading (n : nat) : time.Time :=
  {| time.wall := wallclock n; time.mono := Some (monoclock n) |}.

(** [time.Now()] *)
Definition time_Now : M time.Time :=
  λ w, (reading (readings w),
        {| storage := storage w; readings := S (readings w);
           trace := trace w |}).

(** [parsed, _ := time.Parse(time.RFC3339, s)] *)
Definition time_Parse (s : string) : time.Time :=
  match Parse_RFC3339 s with
  | Some i => {| time.wall := i; time.mono := None |}
  | None => time.zero
  end.

(** ** The ledger facade *)

(** Modelled from the spec: [pkg/blockchain] is not part of the two
    files.  [Add] is a merge-write into the named bucket of the local
    snapshot in which a written key replaces the stored value. *)
Definition Ledger_Add (b : string) (entries : gmap string Value) : M unit :=
  λ w, (tt, {| storage :=
                 <[b := (Marshal <$> entries) ∪ default ∅ (storage w !! b)]>
                   (storage w);
               readings := readings w;
               trace := trace w ++ [EvAdd b entries] |}).

(** The value stored under key [k] of bucket [b], if any. *)
Definition entry (b k : string) (w : World) : option Data :=
  storage w !! b ≫= (.!! k).

(** Modelled from the spec: [pkg/blockchain] is not part of the two
    files.  [GetKey] is a point lookup against the local snapshot. *)
Definition Ledger_GetKey (b k : string) : M (Data * bool) :=
  λ w, (match entry b k w with
        | Some d => (d, true)
        | None => (emptyData, false)
        end, w).

(** Modelled from the spec: [pkg/blockchain] is not part of the two
    files.  [DeleteBucket] removes all keys of the bucket. *)
Definition Ledger_DeleteBucket (b : string) : M unit :=
  λ w, (tt, {| storage := delete b (storage w);
               readings := readings w;
               trace := trace w ++ [EvDeleteBucket b] |}).

(** Modelled from the spec: [pkg/blockchain] is not part of the two
    files.  [LastBlock().Storage] is the full local snapshot. *)
Definition Ledger_LastBlock_Storage : M (gmap string (gmap string Data)) :=
  λ w, (storage w, w).

(** ** [pkg/services/alive.go] *)

(** The body of the [range] loop of [AvailableNodes] for one entry. *)
Definition AvailableNodes_entry (active : list string)
    (ut : string * Data) : M (list string) :=
  let s := default "" (Unmarshal_string ut.2) in
  let parsed := time_Parse s in
  now ← time_Now;
  if time.After (time.Add parsed (15 * time.Minute)) now
  then mret (active ++ [ut.1])
  else mret active.

Fixpoint AvailableNodes_range (entries : list (string * Data))
    (active : list string) : M (list string) :=
  match entries with
  | [] => mret active
  | ut :: rest =>
      active' ← AvailableNodes_entry active ut;
      AvailableNodes_range rest active'
  end.

Definition AvailableNodes : M (list string) :=
  st ← Ledger_LastBlock_Storage;
  AvailableNodes_range
    (map_to_list (default ∅ (st !! HealthCheckKey))) [].


(** The test of the loop body on the stored value [d], when the clock is
    read for the [n]-th time. *)
Definition live_at (d : Data) (n : nat) : bool :=
  time.After
    (time.Add (time_Parse (default "" (Unmarshal_string d))) (15 * time.Minute))
    (reading n).

(** The keys the loop appends when it starts on [entries] at reading [n]. *)
Fixpoint live_keys (entries : list (string * Data)) (n : nat) : list string :=
  match entries with
  | [] => []
  | ut :: rest =>
      (if live_at ut.2 n then [ut.1] else []) ++ live_keys rest (S n)
  end.

(** [k] more clock readings taken, nothing else changed. *)
Definition advance (k : nat) (w : World) : World :=
  {| storage := storage w; readings := (readings w + k)%nat;
     trace := trace w |}.

(** [utils.Leader(nodes)], recorded as a call. *)
Definition utils_Leader (nodes : list string) : M string :=
  λ w, (Leader nodes, {| storage := storage w; readings := readings w;
                         trace := trace w ++ [EvLeader nodes] |}).

(** One run of the closure [Alive] hands to [Announce].  [self] is
    [n.Host().ID().String()]; [t] is the captured variable holding the
    time of the last scrub check, and the result is its value when the
    closure returns. *)
Definition Alive_tick (self : string) (scrubTime : Z) (t : time.Time)
    : M time.Time :=
  (* Keep-alive *)
  stamp ← time_Now;
  Ledger_Add HealthCheckKey {[ self := VString (Format_RFC3339 stamp) ]};;
  (* Keep-alive scrub *)
  nodes ← AvailableNodes;
  if bool_decide (length nodes = 0%nat) then mret t
  else
    lead ← utils_Leader nodes;
    now ← time_Now;
    if negb (time.After (time.Add t scrubTime) now) then
      t' ← time_Now;
      (if bool_decide (lead = self)
       then Ledger_DeleteBucket HealthCheckKey
       else mret tt);;
      mret t'
    else mret t.

(** [Alive] itself reads the clock once, [t := time.Now()], before it
    registers the closure. *)
Definition Alive_start : M time.Time := time_Now.

(** The calls a program makes when started in [w]. *)
Definition issued {A} (m : M A) (w : World) : list Event :=
  drop (length (trace w)) (trace (m w).2).

(** Stages of one run of the closure started in [w]: the world once the
    heartbeat is written, the live-peer set then recomputed, and the index
    of the clock reading that the elapsed-interval test compares with. *)
Definition after_heartbeat (self : string) (w : World) : World :=
  (Ledger_Add HealthCheckKey
     {[ self := VString (Format_RFC3339 (reading (readings w))) ]}
     (time_Now w).2).2.

Definition live_set (self : string) (w : World) : list string :=
  (AvailableNodes (after_heartbeat self w)).1.

Definition check_reading (self : string) (w : World) : nat :=
  readings (AvailableNodes (after_heartbeat self w)).2.

(** The run started in [w] with the captured variable at [t] reaches the
    branch guarded by [!t.Add(scrubTime).After(time.Now())]. *)
Definition enters_branch (self : string) (scrubTime : Z) (t : time.Time)
    (w : World) : bool :=
  negb (bool_decide (length (live_set self w) = 0%nat))
  && negb (time.After (time.Add t scrubTime) (reading (check_reading self w))).

(** Successive runs of the closure on one node.  Between two runs the
    local snapshot may have become anything (other peers write and delete
    concurrently): the [k]-th run starts on the [k]-th snapshot of
    [snapshots].  The captured variable and the clock carry over.  The
    result lists, for every run, the value of [t] and the world it starts
    with. *)
Fixpoint Alive_run (self : string) (scrubTime : Z)
    (snapshots : list (gmap string (gmap string Data)))
    (t : time.Time) (w : World) : list (time.Time * World) :=
  match snapshots with
  | [] => []
  | st :: rest =>
      let w0 := {| storage := st; readings := readings w; trace := trace w |} in
      let r := Alive_tick self scrubTime t w0 in
      (t, w0) :: Alive_run self scrubTime rest r.1 r.2
  end.


(** ** [pkg/edgevpn/services.go] *)

Definition stream_Reset (s : Stream) : M unit := emit (EvReset s).
Definition stream_Close (s : Stream) : M unit := emit (EvClose (OfStream s)).
Definition conn_Close (c : Conn) : M unit := emit (EvClose (OfConn c)).

(** [net.Dial("tcp", addr)]: the attempt is recorded, its outcome is the
    environment's. *)
Definition Dial (addr : string) : M (option Conn) :=
  emit (EvDial addr);; mret (net_Dial addr).

(** [e.host.NewStream(ctx, d, ServiceProtocol)] *)
Definition NewStream (d proto : string) : M (option Stream) :=
  emit (EvNewStream d proto);; mret (host_NewStream d proto).

(** The two [go copyStream(closer, _, _)] tasks and the wait [<-closer],
    as one step of the handler that starts them; [CopyProtocol] below
    looks inside this step. *)
Definition proxy (a b : Endpoint) : M unit := emit (EvProxy a b).

(** The owner a stored service record names: the [PeerID] field after
    [existingValue.Unmarshal(service)] on a fresh [types.Service]. *)
Definition recorded_owner (d : Data) : string :=
  types.PeerID (Unmarshal_Service d (types.mkService "" "")).

(** The closure [ExposeService] hands to [Announce]; [self] is
    [e.host.ID().String()]. *)
Definition Publish_tick (self serviceID : string) : M unit :=
  (* Retrieve current ID for ip in the blockchain *)
  r ← Ledger_GetKey ServicesLedgerKey serviceID;
  let existingValue := r.1 in
  let found := r.2 in
  let service := Unmarshal_Service existingValue (types.mkService "" "") in
  (* If mismatch, update the blockchain *)
  if negb found || negb (bool_decide (types.PeerID service = self)) then
    Ledger_Add ServicesLedgerKey
      {[ serviceID := VService (types.mkService self serviceID) ]}
  else mret tt.

(** The body of the goroutine the stream handler of [ExposeService]
    starts for an inbound [stream]. *)
Definition ServiceHandler (serviceID dstaddress : string) (stream : Stream)
    : M unit :=
  r ← Ledger_GetKey UsersLedgerKey (RemotePeer stream);
  let found := r.2 in
  if negb found then stream_Reset stream
  else
    c ← Dial dstaddress;
    match c with
    | None => stream_Reset stream
    | Some c =>
        proxy (OfStream stream) (OfConn c);;
        stream_Close stream;;
        conn_Close c
    end.

(** The closure [ConnectToService] hands to [Announce]. *)
Definition Grant_tick (self : string) : M unit :=
  r ← Ledger_GetKey UsersLedgerKey self;
  let found := r.2 in
  if negb found then
    now ← time_Now;
    Ledger_Add UsersLedgerKey
      {[ self := VUser (types.mkUser self (Time_String now)) ]}
  else mret tt.

(** The body of the goroutine [ConnectToService] starts for an accepted
    local connection [conn]. *)
Definition ConnectHandler (serviceID : string) (conn : Conn) : M unit :=
  r ← Ledger_GetKey ServicesLedgerKey serviceID;
  let existingValue := r.1 in
  let found := r.2 in
  let service := Unmarshal_Service existingValue (types.mkService "" "") in
  if negb found then conn_Close conn
  else
    (* Decode the Peer *)
    match peer_Decode (types.PeerID service) with
    | None => conn_Close conn
    | Some d =>
        (* Open a stream *)
        stream ← NewStream d ServiceProtocol;
        match stream with
        | None => conn_Close conn
        | Some stream =>
            proxy (OfStream stream) (OfConn conn);;
            stream_Close stream;;
            conn_Close conn
        end
    end.

(** *** The node: registered closures and installed stream handlers *)

(** A closure registered with [Ledger.Announce], by the variables it
    captures. *)
Inductive Periodic : Type :=
| PublishOf (serviceID : string)
| GrantOf.

(** A function stored in [e.config.StreamHandlers], by the variables it
    captures. *)
Inductive Handler : Type :=
| HandlerOf (serviceID dstaddress : string).

Global Instance Periodic_eq_dec : EqDecision Periodic.
Proof. solve_decision. Defined.
Global Instance Handler_eq_dec : EqDecision Handler.
Proof. solve_decision. Defined.

Record EdgeVPN : Type := mkEdgeVPN {
  host_ID : string;
  StreamHandlers : gmap string Handler;
  announced : list Periodic;
}.

Definition run_periodic (e : EdgeVPN) (p : Periodic) : M unit :=
  match p with
  | PublishOf serviceID => Publish_tick (host_ID e) serviceID
  | GrantOf => Grant_tick (host_ID e)
  end.

Definition run_handler (h : Handler) (stream : Stream) : M unit :=
  match h with
  | HandlerOf serviceID dstaddress => ServiceHandler serviceID dstaddress stream
  end.

Definition ExposeService (e : EdgeVPN) (serviceID dstaddress : string)
    : EdgeVPN :=
  {| host_ID := host_ID e;
     (* 2) Set a stream handler *)
     StreamHandlers :=
       <[ServiceProtocol := HandlerOf serviceID dstaddress]> (StreamHandlers e);
     (* 1) Register the ServiceID <-> PeerID Association *)
     announced := announced e ++ [PublishOf serviceID] |}.

(** [ConnectToService] up to its accept loop: [None] is the error of
    [net.Listen], returned before anything is registered. *)
Definition ConnectToService (e : EdgeVPN) (serviceID srcaddr : string)
    : option EdgeVPN :=
  if net_Listen srcaddr then
    (* Announce ourselves so nodes accepts our connection *)
    Some {| host_ID := host_ID e;
            StreamHandlers := StreamHandlers e;
            announced := announced e ++ [GrantOf] |}
  else None.

(** The accept loop of [ConnectToService], over what [l.Accept()] returns
    in turn: after an error the loop continues; a connection is handed to
    a goroutine running [ConnectHandler], whose steps are taken here before
    the next connection's. *)
Fixpoint accept_loop (serviceID : string) (accepted : list (option Conn))
    : M unit :=
  match accepted with
  | [] => mret tt
  | None :: rest => accept_loop serviceID rest
  | Some conn :: rest =>
      ConnectHandler serviceID conn;; accept_loop serviceID rest
  end.

(** The host hands an inbound stream opened under [proto] to the function
    stored for that tag. *)
Definition serve (e : EdgeVPN) (proto : string) (stream : Stream) : M unit :=
  match StreamHandlers e !! proto with
  | Some h => run_handler h stream
  | None => mret tt
  end.

End Services.

(** ** The full-duplex copy, goroutine by goroutine

    [closer := make(chan struct{}, 2)], the two [go copyStream(closer, _, _)]
    tasks, the receive [<-closer] and the two [Close] calls that follow it,
    as an interleaving of three tasks.  [Fwd] is the task started first
    ([copyStream(closer, stream, c)]), [Bwd] the one started second. *)

Module CopyProtocol.

Inductive Dir : Type := Fwd | Bwd.

(** Where a [copyStream] task stands: not yet started by [go]; inside
    [io.Copy]; [io.Copy] has returned and the send [closer <- struct{}{}]
    comes next; returned. *)
Inductive Copier : Type := NotStarted | InCopy | AtSend | Returned.

(** Where the handler that starts the copy stands: before the first [go], before the second,
    at [<-closer], before [stream.Close()], before the connection's
    [Close()], past both. *)
Inductive Caller : Type :=
| AtGo1 | AtGo2 | AtRecv | AtCloseStream | AtCloseConn | Finished.

Record State : Type := mkState {
  caller : Caller;
  fwd : Copier;
  bwd : Copier;
  (** number of values in the buffer of [closer] *)
  buffered : nat;
  (** sends completed by each task, receives completed by the caller *)
  sent_fwd : nat;
  sent_bwd : nat;
  received : nat;
  stream_closed : bool;
  conn_closed : bool;
}.

(** [make(chan struct{}, 2)] *)
Definition capacity : nat := 2.

Definition init : State :=
  {| caller := AtGo1; fwd := NotStarted; bwd := NotStarted; buffered := 0;
     sent_fwd := 0; sent_bwd := 0; received := 0;
     stream_closed := false; conn_closed := false |}.

Definition copier (d : Dir) (s : State) : Copier :=
  match d with Fwd => fwd s | Bwd => bwd s end.

Definition sent (d : Dir) (s : State) : nat :=
  match d with Fwd => sent_fwd s | Bwd => sent_bwd s end.

Definition set_copier (d : Dir) (c : Copier) (s : State) : State :=
  match d with
  | Fwd => {| caller := caller s; fwd := c; bwd := bwd s;
              buffered := buffered s; sent_fwd := sent_fwd s;
              sent_bwd := sent_bwd s; received := received s;
              stream_closed := stream_closed s; conn_closed := conn_closed s |}
  | Bwd => {| caller := caller s; fwd := fwd s; bwd := c;
              buffered := buffered s; sent_fwd := sent_fwd s;
              sent_bwd := sent_bwd s; received := received s;
              stream_closed := stream_closed s; conn_closed := conn_closed s |}
  end.

Definition set_caller (h : Caller) (s : State) : State :=
  {| caller := h; fwd := fwd s; bwd := bwd s;
     buffered := buffered s; sent_fwd := sent_fwd s;
     sent_bwd := sent_bwd s; received := received s;
     stream_closed := stream_closed s; conn_closed := conn_closed s |}.

(** A buffered send completes only while the buffer has room. *)
Definition send (d : Dir) (s : State) : option State :=
  if decide (buffered s < capacity)%nat then
    Some (match d with
          | Fwd => {| caller := caller s; fwd := Returned; bwd := bwd s;
                      buffered := S (buffered s);
                      sent_fwd := S (sent_fwd s); sent_bwd := sent_bwd s;
                      received := received s;
                      stream_closed := stream_closed s;
                      conn_closed := conn_closed s |}
          | Bwd => {| caller := caller s; fwd := fwd s; bwd := Returned;
                      buffered := S (buffered s);
                      sent_fwd := sent_fwd s; sent_bwd := S (sent_bwd s);
                      received := received s;
                      stream_closed := stream_closed s;
                      conn_closed := conn_closed s |}
          end)
  else None.

(** A receive completes only while the buffer holds a value. *)
Definition recv (s : State) : option State :=
  match buffered s with
  | O => None
  | S n => Some {| caller := AtCloseStream; fwd := fwd s; bwd := bwd s;
                   buffered := n;
                   sent_fwd := sent_fwd s; sent_bwd := sent_bwd s;
                   received := S (received s);
                   stream_closed := stream_closed s;
                   conn_closed := conn_closed s |}
  end.

(** The steps the scheduler can pick. *)
Inductive Label : Type :=
| Go1                       (* go copyStream(closer, stream, c) *)
| Go2                       (* go copyStream(closer, c, stream) *)
| CopyReturns (d : Dir)     (* _, _ = io.Copy(dst, src) *)
| Send (d : Dir)            (* closer <- struct{}{} *)
| Recv                      (* <-closer *)
| CloseStream               (* stream.Close() *)
| CloseConn.                (* c.Close() *)

(** One step; [None] when the chosen task is not at that statement or the
    statement blocks. *)
Definition step (l : Label) (s : State) : option State :=
  match l with
  | Go1 =>
      match caller s with
      | AtGo1 => Some (set_caller AtGo2 (set_copier Fwd InCopy s))
      | _ => None
      end
  | Go2 =>
      match caller s with
      | AtGo2 => Some (set_caller AtRecv (set_copier Bwd InCopy s))
      | _ => None
      end
  | CopyReturns d =>
      match copier d s with
      | InCopy => Some (set_copier d AtSend s)
      | _ => None
      end
  | Send d =>
      match copier d s with
      | AtSend => send d s
      | _ => None
      end
  | Recv =>
      match caller s with
      | AtRecv => recv s
      | _ => None
      end
  | CloseStream =>
      match caller s with
      | AtCloseStream =>
          Some {| caller := AtCloseConn; fwd := fwd s; bwd := bwd s;
                  buffered := buffered s;
                  sent_fwd := sent_fwd s; sent_bwd := sent_bwd s;
                  received := received s;
                  stream_closed := true; conn_closed := conn_closed s |}
      | _ => None
      end
  | CloseConn =>
      match caller s with
      | AtCloseConn =>
          Some {| caller := Finished; fwd := fwd s; bwd := bwd s;
                  buffered := buffered s;
                  sent_fwd := sent_fwd s; sent_bwd := sent_bwd s;
                  received := received s;
                  stream_closed := stream_closed s; conn_closed := true |}
      | _ => None
      end
  end.

(** A schedule, run from [s]. *)
Fixpoint run (schedule : list Label) (s : State) : option State :=
  match schedule with
  | [] => Some s
  | l :: rest =>
      match step l s with
      | Some s' => run rest s'
      | None => None
      end
  end.

Definition reachable (s : State) : Prop :=
  ∃ schedule, run schedule init = Some s.

(** What holds of every reachable state. *)
Definition invariant (s : State) : Prop :=
  sent_fwd s = (match fwd s with Returned => 1 | _ => 0 end)%nat
  ∧ sent_bwd s = (match bwd s with Returned => 1 | _ => 0 end)%nat
  ∧ (buffered s + received s = sent_fwd s + sent_bwd s)%nat
  ∧ received s
    = (match caller s with
       | AtCloseStream | AtCloseConn | Finished => 1
       | _ => 0
       end)%nat
  ∧ stream_closed s
    = match caller s with AtCloseConn | Finished => true | _ => false end
  ∧ conn_closed s
    = match caller s with Finished => true | _ => false end
  ∧ match caller s with
    | AtGo1 => fwd s = NotStarted ∧ bwd s = NotStarted
    | AtGo2 => bwd s = NotStarted
    | _ => True
    end.

Definition other (d : Dir) : Dir :=
  match d with Fwd => Bwd | Bwd => Fwd end.

(** The schedule in which only direction [d] finishes before teardown. *)
Definition one_sided (d : Dir) : list Label :=
  [Go1; Go2; CopyReturns d; Send d; Recv; CloseStream; CloseConn].

End CopyProtocol.

(** ** A concrete environment

    Ledger values are kept as the stored value itself, [None] standing for
    bytes that decode to nothing; timestamps are taken from a small
    calendar around 2021-11-01T10:00:00Z. *)

Module Demo.

Definition T0 : Z := 1635760800 * time.Second.

Definition two_digits (n : nat) : string :=
  String (Ascii.ascii_of_nat (48 + n / 10))
    (String (Ascii.ascii_of_nat (48 + n mod 10)) "").

Definition minute_stamp (n : nat) : string :=
  "2021-11-01T10:" +:+ two_digits n +:+ ":00Z".

Definition calendar : list (string * Z) :=
  [ ("2021-11-01T09:44:59Z", T0 - 15 * time.Minute - time.Second);
    ("2021-11-01T09:45:00Z", T0 - 15 * time.Minute);
    ("2021-11-01T09:45:01Z", T0 - 15 * time.Minute + time.Second) ]
  ++ map (λ n, (minute_stamp n, T0 + Z.of_nat n * time.Minute)) (seq 0 30).

Definition parse (s : string) : option Z :=
  snd <$> List.find (λ p, bool_decide (p.1 = s)) calendar.

Definition format (t : time.Time) : string :=
  default "" (fst <$> List.find (λ p, bool_decide (p.2 = time.wall t)) calendar).

Definition unmarshal_string (d : option Value) : option string :=
  match d with
  | Some (VString s) => Some s
  | _ => None
  end.

Definition unmarshal_Service (d : option Value) (into : types.Service)
    : types.Service :=
  match d with
  | Some (VService s) => s
  | _ => into
  end.

(** The smallest string wins. *)
Definition leader (nodes : list string) : string :=
  foldr (λ a b, if bool_decide (String.ltb a b) then a else b)
        (default "" (head nodes)) nodes.

Definition decode (s : string) : option string :=
  if bool_decide (s = "") then None else Some s.

Definition dial (addr : string) : option Conn :=
  if bool_decide (addr = "127.0.0.1:8080") then Some 7%nat else None.

Definition newStream (d proto : string) : option Stream :=
  if bool_decide (d = "peerA") then Some (mkStream 1 d) else None.

(** The environment over a given pair of clocks. *)
Definition env (wc mc : nat → Z) : External :=
  {| Data := option Value;
     emptyData := None;
     Marshal := Some;
     Unmarshal_string := unmarshal_string;
     Unmarshal_Service := unmarshal_Service;
     Parse_RFC3339 := parse;
     Format_RFC3339 := format;
     Time_String := format;
     wallclock := wc;
     monoclock := mc;
     Leader := leader;
     HealthCheckKey := "healthcheck";
     ServiceProtocol := "/edgevpn/service/0.1";
     peer_Decode := decode;
     net_Dial := dial;
     host_NewStream := newStream;
     net_Listen := λ _, true |}.

(** A clock stopped at 10:00:00, and one that advances a minute per
    reading. *)
Definition frozen : External := env (λ _, T0) (λ _, 0).
Definition ticking : External :=
  env (λ n, T0 + Z.of_nat n * time.Minute) (λ n, Z.of_nat n * time.Minute).

Definition heartbeats : gmap string (option Value) :=
  list_to_map
    [ ("peerA", Some (VString "2021-11-01T09:45:01Z"));
      ("peerB", Some (VString "2021-11-01T09:45:00Z"));
      ("peerC", Some (VString "2021-11-01T09:44:59Z"));
      ("peerD", Some (VString "yesterday"));
      ("peerE", None);
      ("peerF", Some (VString "2021-11-01T10:00:00Z")) ].

Definition world0 (E : External) (st : gmap string (gmap string Data)) : World :=
  {| storage := st; readings := 0; trace := [] |}.

(** A snapshot holding the heartbeats above, on the stopped clock. *)
Definition w_heartbeats : @World frozen :=
  world0 frozen {[ "healthcheck" := heartbeats ]}.

(** An empty ledger on the advancing clock, before and after [Alive] took
    its first reading. *)
Definition w_empty : @World ticking := world0 ticking ∅.
Definition w_started : @World ticking := (@Alive_start ticking w_empty).2.

(** Two runs of the keep-alive closure of peerA, scrubbing every two
    minutes, each starting on an empty snapshot. *)
Definition scrub_run : list (time.Time * @World ticking) :=
  @Alive_run ticking "peerA" (2 * time.Minute) [∅; ∅]
    (@Alive_start ticking w_empty).1 w_started.

Definition first_run : time.Time * @World ticking :=
  default (time.zero, w_empty) (scrub_run !! 0%nat).
Definition second_run : time.Time * @World ticking :=
  default (time.zero, w_empty) (scrub_run !! 1%nat).

(** Registry snapshots: peerB holds a grant; the service web is
    registered to peerA, to peerB, or holds a value that is no service
    record. *)
Definition w_granted : @World frozen :=
  world0 frozen
    {[ "users" := {[ "peerB" := Some (VUser (types.mkUser "peerB" "then")) ]} ]}.
Definition w_web (v : Value) : @World frozen :=
  world0 frozen {[ "services" := {[ "web" := Some v ]} ]}.
Definition w_none : @World frozen := world0 frozen ∅.

End Demo.

(** ** Vocabulary for the further properties *)

(** Calls that reach the ledger or the leader election. *)
Definition ledger_call (e : Event) : bool :=
  match e with
  | EvAdd _ _ | EvDeleteBucket _ | EvLeader _ => true
  | _ => false
  end.

(** A node after [ExposeService] has been called for each pair of service
    name and destination of [calls], in order. *)
Definition ExposeAll `{External} (e : EdgeVPN) (calls : list (string * string))
    : EdgeVPN :=
  foldl (λ e' c, ExposeService e' c.1 c.2) e calls.

(** The clock readings at which the runs of [run] that reach the
    elapsed-interval branch made their test, in run order. *)
Definition entering_checks `{External} (self : string) (scrubTime : Z)
    (run : list (time.Time * World)) : list nat :=
  omap (λ tw, if enters_branch self scrubTime tw.1 tw.2
              then Some (check_reading self tw.2) else None) run.

(** How far the three tasks of the copy protocol are from their last
    statement, and the schedule that takes them there. *)
Module CopyProgress.
Import CopyProtocol.

Definition caller_steps (h : Caller) : nat :=
  match h with
  | AtGo1 => 5 | AtGo2 => 4 | AtRecv => 3
  | AtCloseStream => 2 | AtCloseConn => 1 | Finished => 0
  end.

(** [go] moves a task from [NotStarted] to [InCopy] as a step of the
    handler, so both count two statements of the task's own. *)
Definition copier_steps (c : Copier) : nat :=
  match c with
  | NotStarted | InCopy => 2
  | AtSend => 1
  | Returned => 0
  end.

Definition steps_left (s : State) : nat :=
  caller_steps (caller s) + copier_steps (fwd s) + copier_steps (bwd s).

(** Everything returned, both endpoints closed, and the signal nobody
    waited for still in the buffer. *)
Definition final : State :=
  {| caller := Finished; fwd := Returned; bwd := Returned; buffered := 1;
     sent_fwd := 1; sent_bwd := 1; received := 1;
     stream_closed := true; conn_closed := true |}.

(** Past a [go] statement, the task it starts has been started. *)
Definition started (s : State) : Prop :=
  match caller s with
  | AtGo1 => True
  | AtGo2 => fwd s ≠ NotStarted
  | _ => fwd s ≠ NotStarted ∧ bwd s ≠ NotStarted
  end.

Definition finish_copier (d : Dir) (c : Copier) : list Label :=
  match c with
  | NotStarted | InCopy => [CopyReturns d; Send d]
  | AtSend => [Send d]
  | Returned => []
  end.

(** A schedule that completes the protocol from [s]: start what is not
    started, let both copies return and send, then receive and close. *)
Definition finish (s : State) : list Label :=
  match caller s with AtGo1 => [Go1; Go2] | AtGo2 => [Go2] | _ => [] end
  ++ finish_copier Fwd (fwd s)
  ++ finish_copier Bwd (bwd s)
  ++ match caller s with
     | AtGo1 | AtGo2 | AtRecv => [Recv; CloseStream; CloseConn]
     | AtCloseStream => [CloseStream; CloseConn]
     | AtCloseConn => [CloseConn]
     | Finished => []
     end.

End CopyProgress.


(** * Properties *)

(** Membership in a list that is written out: one case per element. *)
Ltac elem_of_cases H :=
  repeat match type of H with
         | _ ∈ [] => by apply elem_of_nil in H
         | _ ∈ _ :: _ => apply elem_of_cons in H as [H | H]
         end.

Section Properties.
Context `{External}.

(** ** The live-peer set *)

Lemma AvailableNodes_range_run entries active w :
  AvailableNodes_range entries active w
  = (active ++ live_keys entries (readings w), advance (length entries) w).
Proof.
  revert active w.
  induction entries as [|[u d] rest IH]; intros active w.
  - simpl. rewrite app_nil_r. unfold advance.
    rewrite Nat.add_0_r. by destruct w.
  - cbn [AvailableNodes_range live_keys length].
    cbv [mbind M_bind AvailableNodes_entry time_Now fst snd].
    fold (live_at d (readings w)).
    destruct (live_at d (readings w)); cbv [mret M_ret fst snd];
      rewrite IH; cbn [readings storage trace]; unfold advance;
      cbn [readings storage trace];
      rewrite ?Nat.add_succ_r, <- ?app_assoc; reflexivity.
Qed.

Lemma AvailableNodes_run w :
  AvailableNodes w
  = (live_keys (map_to_list (default ∅ (storage w !! HealthCheckKey)))
       (readings w),
     advance (length (map_to_list (default ∅ (storage w !! HealthCheckKey)))) w).
Proof.
  cbv [AvailableNodes mbind M_bind Ledger_LastBlock_Storage fst snd].
  by rewrite AvailableNodes_range_run.
Qed.

Lemma elem_of_live_keys entries n u :
  u ∈ live_keys entries n ↔
  ∃ j d, entries !! j = Some (u, d) ∧ live_at d (n + j) = true.
Proof.
  revert n. induction entries as [|[u' d'] rest IH]; intros n.
  - simpl. split; [by intros ?%elem_of_nil | by intros (j & d & ? & _)].
  - cbn [live_keys fst snd]. rewrite elem_of_app, IH. split.
    + intros [Hh | (j & d & Hj & Hl)].
      * destruct (live_at d' n) eqn:E; [|by apply elem_of_nil in Hh].
        apply list_elem_of_singleton in Hh as ->.
        exists 0%nat, d'. by rewrite Nat.add_0_r.
      * exists (S j), d. by rewrite Nat.add_succ_r.
    + intros ([|j] & d & Hj & Hl).
      * left. simplify_eq/=. rewrite Nat.add_0_r in Hl. rewrite Hl.
        by apply list_elem_of_singleton.
      * right. exists j, d. by rewrite Nat.add_succ_r in Hl.
Qed.

(** With keys that are unique, as those of a bucket are, membership of a
    key is decided by its own entry alone. *)
Lemma elem_of_live_keys_NoDup entries n j u d :
  NoDup entries.*1 →
  entries !! j = Some (u, d) →
  u ∈ live_keys entries n ↔ live_at d (n + j) = true.
Proof.
  intros Hnd Hj. rewrite elem_of_live_keys. split; [|by eauto].
  intros (j' & d' & Hj' & Hl).
  assert (j' = j) as ->.
  { eapply (NoDup_lookup entries.*1); [done | |];
      rewrite list_lookup_fmap; [by rewrite Hj' | by rewrite Hj]. }
  by simplify_eq.
Qed.

Lemma live_at_parsed d s t n :
  Unmarshal_string d = Some s →
  Parse_RFC3339 s = Some t →
  live_at d n = bool_decide (wallclock n < t + 15 * time.Minute).
Proof.
  intros Hs Ht. unfold live_at, time_Parse. rewrite Hs. simpl. by rewrite Ht.
Qed.

(** An entry that fails to decode, or decodes to a string that is no
    timestamp, is compared as the zero time. *)
Lemma live_at_malformed d n :
  Unmarshal_string d = None ∨
    (∃ s, Unmarshal_string d = Some s ∧ Parse_RFC3339 s = None) →
  Parse_RFC3339 "" = None →
  live_at d n
  = bool_decide (wallclock n < time.wall time.zero + 15 * time.Minute).
Proof.
  intros [Hd | (s & Hd & Hs)] He; unfold live_at, time_Parse; rewrite Hd;
    simpl; by rewrite ?He, ?Hs.
Qed.

(** Go fixes no order for [range] over a map.  Whatever order the loop
    meets the entries of a bucket in, a well-formed entry is kept exactly
    when the reading taken for it is less than fifteen minutes past its
    timestamp. *)
Lemma AvailableNodes_range_any_order (bucket : gmap string Data)
    (entries : list (string * Data)) w j u d s t :
  entries ≡ₚ map_to_list bucket →
  entries !! j = Some (u, d) →
  Unmarshal_string d = Some s →
  Parse_RFC3339 s = Some t →
  u ∈ (AvailableNodes_range entries [] w).1 ↔
    wallclock (readings w + j) < t + 15 * time.Minute.
Proof.
  intros Hperm Hj Hs Ht. rewrite AvailableNodes_range_run. cbn [fst app].
  rewrite (elem_of_live_keys_NoDup _ _ j u d); [| |done].
  - by rewrite (live_at_parsed d s t), bool_decide_eq_true.
  - rewrite Hperm. apply NoDup_fst_map_to_list.
Qed.

(** Every entry of a bucket is met by the loop. *)
Lemma bucket_entry_position (bucket : gmap string Data) u d :
  bucket !! u = Some d → ∃ j, map_to_list bucket !! j = Some (u, d).
Proof.
  intros Hu. apply list_elem_of_lookup. by apply elem_of_map_to_list.
Qed.

(** C2: an entry of the healthcheck bucket whose value decodes to a
    timestamp [t] has its key in the result of [AvailableNodes] exactly when
    the clock reading [now] taken for that entry satisfies
    [now < t + 15 minutes]; at [now = t + 15 minutes] the key is left out. *)
Theorem AvailableNodes_live_iff (w : World) (j : nat) (u : string)
    (d : Data) (s : string) (t : Z) :
  map_to_list (default ∅ (storage w !! HealthCheckKey)) !! j = Some (u, d) →
  Unmarshal_string d = Some s →
  Parse_RFC3339 s = Some t →
  (u ∈ (AvailableNodes w).1 ↔
     wallclock (readings w + j) < t + 15 * time.Minute) ∧
  (wallclock (readings w + j) = t + 15 * time.Minute →
     u ∉ (AvailableNodes w).1).
Proof.
  intros Hj Hs Ht. rewrite AvailableNodes_run. cbn [fst].
  rewrite (elem_of_live_keys_NoDup _ _ j u d);
    [| apply NoDup_fst_map_to_list | done].
  rewrite (live_at_parsed d s t) by done.
  rewrite bool_decide_eq_true. split; [done | lia].
Qed.

(** C8: an entry whose value does not decode to a string, or decodes to a
    string that is no RFC3339 timestamp, is left out of the result; the loop
    still visits every entry (one clock reading each), and every entry with
    a proper timestamp is still decided by that timestamp alone.  The empty
    string is no timestamp, and the clock reads no earlier than 00:15 on
    January 1 of year 1. *)
Theorem AvailableNodes_malformed_excluded (w : World) (j : nat) (u : string)
    (d : Data) :
  Parse_RFC3339 "" = None →
  time.wall time.zero + 15 * time.Minute ≤ wallclock (readings w + j) →
  map_to_list (default ∅ (storage w !! HealthCheckKey)) !! j = Some (u, d) →
  (Unmarshal_string d = None ∨
   ∃ s, Unmarshal_string d = Some s ∧ Parse_RFC3339 s = None) →
  (u ∉ (AvailableNodes w).1) ∧
  ((AvailableNodes w).2
   = advance (length (map_to_list (default ∅ (storage w !! HealthCheckKey)))) w) ∧
  ∀ j' u' d' s' t',
    map_to_list (default ∅ (storage w !! HealthCheckKey)) !! j' = Some (u', d') →
    Unmarshal_string d' = Some s' →
    Parse_RFC3339 s' = Some t' →
    (u' ∈ (AvailableNodes w).1 ↔
       wallclock (readings w + j') < t' + 15 * time.Minute).
Proof.
  intros He Hclock Hj Hbad. rewrite AvailableNodes_run. cbn [fst snd].
  split; [|split; [done|]].
  - rewrite (elem_of_live_keys_NoDup _ _ j u d);
      [| apply NoDup_fst_map_to_list | done].
    rewrite live_at_malformed by done.
    rewrite bool_decide_eq_true. lia.
  - intros j' u' d' s' t' Hj' Hs' Ht'.
    rewrite (elem_of_live_keys_NoDup _ _ j' u' d');
      [| apply NoDup_fst_map_to_list | done].
    rewrite (live_at_parsed d' s' t') by done.
    by rewrite bool_decide_eq_true.
Qed.

(** ** The scrub scheduler *)

(** The effect of one run of the closure, stage by stage. *)
Lemma Alive_tick_run self scrubTime t w :
  Alive_tick self scrubTime t w
  = let w1 := after_heartbeat self w in
    let nodes := live_set self w in
    let k := check_reading self w in
    if bool_decide (length nodes = 0%nat) then
      (t, {| storage := storage w1; readings := k; trace := trace w1 |})
    else if time.After (time.Add t scrubTime) (reading k) then
      (t, {| storage := storage w1; readings := S k;
             trace := trace w1 ++ [EvLeader nodes] |})
    else if bool_decide (Leader nodes = self) then
      (reading (S k),
       {| storage := delete HealthCheckKey (storage w1); readings := S (S k);
          trace := (trace w1 ++ [EvLeader nodes])
                     ++ [EvDeleteBucket HealthCheckKey] |})
    else
      (reading (S k),
       {| storage := storage w1; readings := S (S k);
          trace := trace w1 ++ [EvLeader nodes] |}).
Proof.
  unfold live_set, check_reading.
  set (w1 := after_heartbeat self w).
  unfold Alive_tick, mbind, M_bind. cbn [fst snd].
  change ((Ledger_Add _ _ (time_Now w).2).2) with w1.
  assert (storage (AvailableNodes w1).2 = storage w1
          ∧ trace (AvailableNodes w1).2 = trace w1) as [Hst Htr]
    by (by rewrite AvailableNodes_run).
  destruct (AvailableNodes w1) as [nodes [st k tr]].
  cbn [fst snd storage readings trace] in *. subst st tr.
  case_bool_decide; [done|].
  cbv [utils_Leader time_Now mret M_ret fst snd storage readings trace].
  destruct (time.After _ _); cbn [negb]; [done|].
  by case_bool_decide.
Qed.

Lemma trace_after_heartbeat self w :
  trace (after_heartbeat self w)
  = trace w ++ [EvAdd HealthCheckKey
                  {[ self := VString (Format_RFC3339 (reading (readings w))) ]}].
Proof. reflexivity. Qed.

(** The calls one run of the closure makes. *)
Lemma Alive_tick_issued self scrubTime t w :
  issued (Alive_tick self scrubTime t) w
  = EvAdd HealthCheckKey
      {[ self := VString (Format_RFC3339 (reading (readings w))) ]}
    :: if bool_decide (length (live_set self w) = 0%nat) then []
       else EvLeader (live_set self w)
            :: if enters_branch self scrubTime t w
                  && bool_decide (Leader (live_set self w) = self)
               then [EvDeleteBucket HealthCheckKey] else [].
Proof.
  unfold issued, enters_branch. rewrite Alive_tick_run. cbv zeta.
  repeat (case_bool_decide || destruct (time.After _ _));
    cbn [fst snd trace negb andb]; rewrite trace_after_heartbeat;
    rewrite <- ?app_assoc; by rewrite drop_app_length.
Qed.

Lemma After_Add_reading i d k :
  time.After (time.Add (reading i) d) (reading k)
  = bool_decide (monoclock k < d + monoclock i).
Proof. reflexivity. Qed.

(** C1: a run of the closure issues [DeleteBucket] (and then of the
    healthcheck bucket) only if the live-peer set it recomputed is not
    empty, the scrub interval has elapsed on the monotonic clock since the
    reading held in [t], and [utils.Leader] of that set is the node itself.
    With an empty live-peer set the run makes no call besides the
    heartbeat write (none to [utils.Leader], no delete), takes no further
    clock reading and leaves [t] as it was. *)
Theorem Alive_tick_delete_guarded (self : string) (scrubTime : Z) (i : nat)
    (w : World) :
  (∀ b, EvDeleteBucket b ∈ issued (Alive_tick self scrubTime (reading i)) w →
        b = HealthCheckKey
        ∧ live_set self w ≠ []
        ∧ monoclock i + scrubTime ≤ monoclock (check_reading self w)
        ∧ Leader (live_set self w) = self)
  ∧ (live_set self w = [] →
       issued (Alive_tick self scrubTime (reading i)) w
       = [EvAdd HealthCheckKey
            {[ self := VString (Format_RFC3339 (reading (readings w))) ]}]
       ∧ (Alive_tick self scrubTime (reading i) w).1 = reading i
       ∧ readings (Alive_tick self scrubTime (reading i) w).2
         = check_reading self w).
Proof.
  split.
  - intros b. rewrite Alive_tick_issued. unfold enters_branch.
    rewrite After_Add_reading. intros Hin.
    destruct (bool_decide_reflect (length (live_set self w) = 0%nat))
      as [Hlen|Hlen]; [by elem_of_cases Hin|].
    destruct (bool_decide_reflect
                (monoclock (check_reading self w) < scrubTime + monoclock i))
      as [Hel|Hel]; cbn [negb andb] in Hin; [by elem_of_cases Hin|].
    destruct (bool_decide_reflect (Leader (live_set self w) = self))
      as [Hlead|Hlead]; [|by elem_of_cases Hin].
    elem_of_cases Hin; simplify_eq.
    repeat split; [| lia | done].
    intros Hnil. by rewrite Hnil in Hlen.
  - intros Hnil. rewrite Alive_tick_issued, Alive_tick_run. cbv zeta.
    rewrite Hnil. by rewrite bool_decide_eq_true_2.
Qed.

Lemma check_reading_gt self w : (readings w < check_reading self w)%nat.
Proof.
  unfold check_reading. rewrite AvailableNodes_run. cbn. lia.
Qed.

Lemma Alive_tick_t self scrubTime t w :
  (Alive_tick self scrubTime t w).1
  = if enters_branch self scrubTime t w
    then reading (S (check_reading self w)) else t.
Proof.
  rewrite Alive_tick_run. unfold enters_branch. cbv zeta.
  repeat (case_bool_decide || destruct (time.After _ _)); done.
Qed.

Lemma Alive_tick_readings self scrubTime t w :
  readings (Alive_tick self scrubTime t w).2
  = if bool_decide (length (live_set self w) = 0%nat)
    then check_reading self w
    else if enters_branch self scrubTime t w
         then S (S (check_reading self w)) else S (check_reading self w).
Proof.
  rewrite Alive_tick_run. unfold enters_branch. cbv zeta.
  repeat (case_bool_decide || destruct (time.After _ _)); done.
Qed.

(** [t] always holds a clock reading taken earlier. *)
Lemma Alive_tick_keeps_reading self scrubTime i w :
  (i < readings w)%nat →
  ∃ i', (Alive_tick self scrubTime (reading i) w).1 = reading i'
        ∧ (i ≤ i')%nat
        ∧ (i' < readings (Alive_tick self scrubTime (reading i) w).2)%nat
        ∧ (enters_branch self scrubTime (reading i) w = true →
           i' = S (check_reading self w)).
Proof.
  intros Hi. pose proof (check_reading_gt self w) as Hk.
  rewrite Alive_tick_t, Alive_tick_readings.
  destruct (enters_branch self scrubTime (reading i) w) eqn:He.
  - exists (S (check_reading self w)).
    unfold enters_branch in He. apply andb_true_iff in He as [Hne _].
    apply negb_true_iff in Hne. rewrite Hne. repeat split; lia.
  - exists i. case_bool_decide; repeat split; (lia || done).
Qed.

Lemma Alive_run_later self scrubTime snapshots :
  ∀ i w b tb wb,
    (i < readings w)%nat →
    Alive_run self scrubTime snapshots (reading i) w !! b = Some (tb, wb) →
    ∃ ib, tb = reading ib ∧ (i ≤ ib)%nat ∧ (ib < readings wb)%nat.
Proof.
  induction snapshots as [|st rest IH]; intros i w b tb wb Hi Hb; [done|].
  cbn [Alive_run] in Hb. destruct b as [|b].
  - simplify_eq/=. exists i. repeat split; (lia || done).
  - cbn [lookup list_lookup] in Hb.
    set (w0 := {| storage := st; readings := readings w; trace := trace w |})
      in *.
    destruct (Alive_tick_keeps_reading self scrubTime i w0 Hi)
      as (i' & Ht & Hle & Hlt & _).
    rewrite Ht in Hb. destruct (IH _ _ _ _ _ Hlt Hb) as (ib & -> & ? & ?).
    exists ib. repeat split; (lia || done).
Qed.

Lemma Alive_run_spacing self scrubTime snapshots :
  (∀ n m, (n ≤ m)%nat → monoclock n ≤ monoclock m) →
  ∀ i w a b ta wa tb wb,
    (i < readings w)%nat →
    (a < b)%nat →
    Alive_run self scrubTime snapshots (reading i) w !! a = Some (ta, wa) →
    Alive_run self scrubTime snapshots (reading i) w !! b = Some (tb, wb) →
    enters_branch self scrubTime ta wa = true →
    enters_branch self scrubTime tb wb = true →
    monoclock (S (check_reading self wa)) + scrubTime
    ≤ monoclock (check_reading self wb).
Proof.
  intros Hmono.
  induction snapshots as [|st rest IH];
    intros i w a b ta wa tb wb Hi Hab Ha Hb Hea Heb; [done|].
  cbn [Alive_run] in Ha, Hb.
  set (w0 := {| storage := st; readings := readings w; trace := trace w |})
    in *.
  destruct (Alive_tick_keeps_reading self scrubTime i w0 Hi)
    as (i' & Ht & Hle & Hlt & Hent).
  rewrite Ht in Ha, Hb.
  destruct b as [|b]; [lia|]. cbn [lookup list_lookup] in Hb.
  destruct a as [|a].
  - cbn [lookup list_lookup] in Ha.
    assert (ta = reading i ∧ wa = w0) as [-> ->] by (by simplify_eq).
    specialize (Hent Hea) as ->.
    destruct (Alive_run_later _ _ _ _ _ _ _ _ Hlt Hb) as (ib & -> & Hib & _).
    unfold enters_branch in Heb. apply andb_true_iff in Heb as [_ Heb].
    rewrite After_Add_reading in Heb.
    apply negb_true_iff, bool_decide_eq_false in Heb.
    pose proof (Hmono (S (check_reading self w0)) ib ltac:(lia)). lia.
  - cbn [lookup list_lookup] in Ha.
    eapply (IH i' _ a b); eauto with lia.
Qed.

(** What a run does that issues a delete. *)
Lemma delete_enters_branch self scrubTime t w b :
  EvDeleteBucket b ∈ issued (Alive_tick self scrubTime t) w →
  enters_branch self scrubTime t w = true.
Proof.
  rewrite Alive_tick_issued. intros Hin.
  destruct (bool_decide (length (live_set self w) = 0%nat));
    [by elem_of_cases Hin|].
  destruct (enters_branch self scrubTime t w); [done|].
  cbn [andb] in Hin. by elem_of_cases Hin.
Qed.

(** C5: a run of the closure that reaches the elapsed-interval branch sets
    [t] to a fresh clock reading whether or not the node is the leader.
    Hence, over successive runs on one node whose monotonic clock never
    goes back, whatever the ledger holds at each run: two runs that both
    enter the branch, and in particular two runs that both issue
    [DeleteBucket], are such that the later one makes its elapsed-interval
    test at least one scrub interval after the reading the earlier one
    stored in [t] (which it took after its own test). *)
Theorem scrub_at_most_once_per_interval (self : string) (scrubTime : Z) :
  (∀ i w,
     enters_branch self scrubTime (reading i) w = true →
     (Alive_tick self scrubTime (reading i) w).1
     = reading (S (check_reading self w)))
  ∧ ((∀ n m, (n ≤ m)%nat → monoclock n ≤ monoclock m) →
     ∀ snapshots w a b ta wa tb wb,
       (a < b)%nat →
       Alive_run self scrubTime snapshots (Alive_start w).1 (Alive_start w).2
         !! a = Some (ta, wa) →
       Alive_run self scrubTime snapshots (Alive_start w).1 (Alive_start w).2
         !! b = Some (tb, wb) →
       (enters_branch self scrubTime ta wa = true →
        enters_branch self scrubTime tb wb = true →
        monoclock (S (check_reading self wa)) + scrubTime
        ≤ monoclock (check_reading self wb))
       ∧ (EvDeleteBucket HealthCheckKey
            ∈ issued (Alive_tick self scrubTime ta) wa →
          EvDeleteBucket HealthCheckKey
            ∈ issued (Alive_tick self scrubTime tb) wb →
          monoclock (S (check_reading self wa)) + scrubTime
          ≤ monoclock (check_reading self wb))).
Proof.
  split.
  - intros i w He. by rewrite Alive_tick_t, He.
  - intros Hmono snapshots w a b ta wa tb wb Hab Ha Hb.
    assert (enters_branch self scrubTime ta wa = true →
            enters_branch self scrubTime tb wb = true →
            monoclock (S (check_reading self wa)) + scrubTime
            ≤ monoclock (check_reading self wb)) as Hsp.
    { eapply (Alive_run_spacing self scrubTime snapshots Hmono
                (readings w) (Alive_start w).2 a b); try done.
      cbn. lia. }
    split; [done|].
    intros Hda Hdb. apply Hsp; by eapply delete_enters_branch.
Qed.

(** ** The service registry *)

Lemma issued_nil {A} (a : A) w : issued (mret a) w = [].
Proof. unfold issued. cbn. by rewrite drop_all. Qed.

Lemma issued_Ledger_Add b m w : issued (Ledger_Add b m) w = [EvAdd b m].
Proof. unfold issued. cbn. by rewrite drop_app_length. Qed.

Lemma entry_Ledger_Add b k v w :
  entry b k (Ledger_Add b {[ k := v ]} w).2 = Some (Marshal v).
Proof.
  unfold entry. cbn. rewrite lookup_insert_eq. cbn.
  apply lookup_union_Some_l. by rewrite map_fmap_singleton, lookup_singleton_eq.
Qed.

(** One evaluation of the publish closure, by the entry it finds. *)
Lemma Publish_tick_run self serviceID w :
  Publish_tick self serviceID w
  = match entry ServicesLedgerKey serviceID w with
    | Some d =>
        if bool_decide (recorded_owner d = self) then (tt, w)
        else Ledger_Add ServicesLedgerKey
               {[ serviceID := VService (types.mkService self serviceID) ]} w
    | None =>
        Ledger_Add ServicesLedgerKey
          {[ serviceID := VService (types.mkService self serviceID) ]} w
    end.
Proof.
  cbv [Publish_tick mbind M_bind Ledger_GetKey fst snd].
  destruct (entry ServicesLedgerKey serviceID w) as [d|]; [|done].
  fold (recorded_owner d). by case_bool_decide.
Qed.

Lemma Publish_tick_issued self serviceID w :
  issued (Publish_tick self serviceID) w
  = match entry ServicesLedgerKey serviceID w with
    | Some d =>
        if bool_decide (recorded_owner d = self) then []
        else [EvAdd ServicesLedgerKey
                {[ serviceID := VService (types.mkService self serviceID) ]}]
    | None =>
        [EvAdd ServicesLedgerKey
           {[ serviceID := VService (types.mkService self serviceID) ]}]
    end.
Proof.
  unfold issued at 1. rewrite Publish_tick_run.
  destruct (entry ServicesLedgerKey serviceID w); [case_bool_decide|].
  - apply (issued_nil tt).
  - apply issued_Ledger_Add.
  - apply issued_Ledger_Add.
Qed.

(** C3: the publish closure writes nothing when the services entry is
    present and names this node as owner; it issues the single write of
    [{PeerID: self, Name: serviceID}] exactly when the entry is absent or
    names another owner.  After one evaluation, a second evaluation that
    finds the owner unchanged writes nothing, so the two together write at
    most once.  (The codec returns the owner it was given to encode.) *)
Theorem Publish_tick_idempotent (self serviceID : string) :
  (∀ w d,
     entry ServicesLedgerKey serviceID w = Some d →
     recorded_owner d = self →
     Publish_tick self serviceID w = (tt, w))
  ∧ (∀ w,
       (issued (Publish_tick self serviceID) w
        = [EvAdd ServicesLedgerKey
             {[ serviceID := VService (types.mkService self serviceID) ]}]
        ↔ (entry ServicesLedgerKey serviceID w = None
           ∨ ∃ d, entry ServicesLedgerKey serviceID w = Some d
                  ∧ recorded_owner d ≠ self))
       ∧ (issued (Publish_tick self serviceID) w = []
          ↔ ∃ d, entry ServicesLedgerKey serviceID w = Some d
                 ∧ recorded_owner d = self))
  ∧ (recorded_owner (Marshal (VService (types.mkService self serviceID)))
     = self →
     ∀ w w',
       recorded_owner <$> entry ServicesLedgerKey serviceID w'
       = recorded_owner
           <$> entry ServicesLedgerKey serviceID
                 (Publish_tick self serviceID w).2 →
       issued (Publish_tick self serviceID) w' = []
       ∧ (length (issued (Publish_tick self serviceID) w)
          + length (issued (Publish_tick self serviceID) w') ≤ 1)%nat).
Proof.
  split; [|split].
  - intros w d Hd Ho. rewrite Publish_tick_run, Hd.
    by rewrite bool_decide_eq_true_2.
  - intros w. rewrite Publish_tick_issued.
    destruct (entry ServicesLedgerKey serviceID w) as [d|].
    + case_bool_decide as Ho.
      * split; split; try done.
        -- intros [? | (d' & ? & ?)]; simplify_eq.
        -- eauto.
      * split; split; try done.
        -- eauto.
        -- intros (d' & ? & ?); simplify_eq.
    + split; split; try done.
      * eauto.
      * intros (d' & ? & ?); simplify_eq.
  - intros Hcodec w w' Hsame.
    assert (∃ d, entry ServicesLedgerKey serviceID
                   (Publish_tick self serviceID w).2 = Some d
                 ∧ recorded_owner d = self) as (d & Hd & Ho).
    { rewrite Publish_tick_run.
      destruct (entry ServicesLedgerKey serviceID w) as [d|] eqn:Hw;
        [case_bool_decide|]; rewrite ?entry_Ledger_Add; eauto. }
    rewrite Hd in Hsame.
    destruct (entry ServicesLedgerKey serviceID w') as [d'|] eqn:Hw';
      [|done].
    cbn in Hsame. assert (recorded_owner d' = self) as Ho' by congruence.
    assert (issued (Publish_tick self serviceID) w' = []) as Hnil.
    { by rewrite Publish_tick_issued, Hw', bool_decide_eq_true_2. }
    split; [done|]. rewrite Hnil, Publish_tick_issued.
    destruct (entry ServicesLedgerKey serviceID w);
      [case_bool_decide|]; cbn; lia.
Qed.

Lemma Grant_tick_run self w :
  Grant_tick self w
  = match entry UsersLedgerKey self w with
    | Some _ => (tt, w)
    | None =>
        Ledger_Add UsersLedgerKey
          {[ self := VUser (types.mkUser self
                              (Time_String (reading (readings w)))) ]}
          (time_Now w).2
    end.
Proof.
  cbv [Grant_tick mbind M_bind Ledger_GetKey fst snd].
  by destruct (entry UsersLedgerKey self w).
Qed.

Lemma Grant_tick_issued self w :
  issued (Grant_tick self) w
  = match entry UsersLedgerKey self w with
    | Some _ => []
    | None =>
        [EvAdd UsersLedgerKey
           {[ self := VUser (types.mkUser self
                               (Time_String (reading (readings w)))) ]}]
    end.
Proof.
  unfold issued. rewrite Grant_tick_run.
  destruct (entry UsersLedgerKey self w); cbn.
  - by rewrite drop_all.
  - by rewrite drop_app_length.
Qed.

(** C6: the grant closure issues a write, of the users entry of this node,
    only when it finds no entry under that key.  When an entry exists the
    closure changes nothing at all: no ledger call, no clock reading, the
    snapshot (and with it the stored record and its timestamp) as before;
    and so after any number of evaluations. *)
Theorem Grant_tick_never_refreshes (self : string) :
  (∀ w b m,
     EvAdd b m ∈ issued (Grant_tick self) w →
     entry UsersLedgerKey self w = None
     ∧ b = UsersLedgerKey
     ∧ m = {[ self := VUser (types.mkUser self
                               (Time_String (reading (readings w)))) ]})
  ∧ (∀ w,
       is_Some (entry UsersLedgerKey self w) →
       Grant_tick self w = (tt, w)
       ∧ issued (Grant_tick self) w = []
       ∧ ∀ n, Nat.iter n (λ w', (Grant_tick self w').2) w = w).
Proof.
  split.
  - intros w b m. rewrite Grant_tick_issued.
    destruct (entry UsersLedgerKey self w).
    + by intros ?%elem_of_nil.
    + intros Hin%list_elem_of_singleton. by simplify_eq.
  - intros w [d Hd].
    assert (Grant_tick self w = (tt, w)) as Hrun
      by (by rewrite Grant_tick_run, Hd).
    split; [done|]. split; [by rewrite Grant_tick_issued, Hd|].
    intros n. induction n as [|n IH]; [done|].
    by rewrite Nat.iter_succ, IH, Hrun.
Qed.

(** ** The stream tunnel *)

Lemma issued_emit e w : issued (emit e) w = [e].
Proof. unfold issued. cbn. by rewrite drop_app_length. Qed.

(** The calls the expose-side handler makes, by what it finds. *)
Lemma ServiceHandler_issued serviceID dstaddress stream w :
  issued (ServiceHandler serviceID dstaddress stream) w
  = match entry UsersLedgerKey (RemotePeer stream) w with
    | None => [EvReset stream]
    | Some _ =>
        EvDial dstaddress
        :: match net_Dial dstaddress with
           | None => [EvReset stream]
           | Some c =>
               [EvProxy (OfStream stream) (OfConn c);
                EvClose (OfStream stream); EvClose (OfConn c)]
           end
    end.
Proof.
  unfold issued.
  cbv [ServiceHandler mbind M_bind Ledger_GetKey fst snd].
  destruct (entry UsersLedgerKey (RemotePeer stream) w); cbn [negb].
  - cbv [Dial mbind M_bind mret M_ret emit fst snd].
    destruct (net_Dial dstaddress);
      cbv [proxy stream_Close conn_Close stream_Reset emit fst snd trace];
      rewrite <- ?app_assoc; by rewrite drop_app_length.
  - cbv [stream_Reset emit snd trace]. by rewrite drop_app_length.
Qed.

Lemma ServiceHandler_storage serviceID dstaddress stream w :
  storage (ServiceHandler serviceID dstaddress stream w).2 = storage w.
Proof.
  cbv [ServiceHandler mbind M_bind Ledger_GetKey fst snd].
  destruct (entry UsersLedgerKey (RemotePeer stream) w); cbn [negb]; [|done].
  cbv [Dial mbind M_bind mret M_ret emit fst snd].
  by destruct (net_Dial dstaddress).
Qed.

(** The handler dials nothing but its destination, and only for a peer
    that holds a grant. *)
Lemma ServiceHandler_dials serviceID dstaddress stream w addr :
  EvDial addr ∈ issued (ServiceHandler serviceID dstaddress stream) w →
  addr = dstaddress ∧ is_Some (entry UsersLedgerKey (RemotePeer stream) w).
Proof.
  rewrite ServiceHandler_issued.
  destruct (entry UsersLedgerKey (RemotePeer stream) w) as [d|];
    [|intros Hin; by elem_of_cases Hin].
  intros Hin. split; [|by eexists].
  destruct (net_Dial dstaddress); elem_of_cases Hin; by simplify_eq.
Qed.

(** C4: when the users bucket holds no entry for the remote peer of an
    inbound stream, the handler resets that stream and does nothing else,
    so it dials nothing; whenever the handler dials, it dials the local
    destination and the remote peer has an entry in the users bucket. *)
Theorem ServiceHandler_admission (serviceID dstaddress : string)
    (stream : Stream) (w : World) :
  (entry UsersLedgerKey (RemotePeer stream) w = None →
   issued (ServiceHandler serviceID dstaddress stream) w = [EvReset stream]
   ∧ (∀ addr,
        EvDial addr ∉ issued (ServiceHandler serviceID dstaddress stream) w)
   ∧ storage (ServiceHandler serviceID dstaddress stream w).2 = storage w)
  ∧ (∀ addr,
       EvDial addr ∈ issued (ServiceHandler serviceID dstaddress stream) w →
       addr = dstaddress
       ∧ is_Some (entry UsersLedgerKey (RemotePeer stream) w)).
Proof.
  split; [|apply ServiceHandler_dials].
  intros Hnone. rewrite ServiceHandler_issued, Hnone.
  split; [done|]. split; [|apply ServiceHandler_storage].
  intros addr Hin. by elem_of_cases Hin.
Qed.

(** The connect-side handler, by what it finds. *)
Lemma ConnectHandler_run serviceID conn w :
  ConnectHandler serviceID conn w
  = match entry ServicesLedgerKey serviceID w with
    | None => conn_Close conn w
    | Some d =>
        match peer_Decode (recorded_owner d) with
        | None => conn_Close conn w
        | Some p =>
            match host_NewStream p ServiceProtocol with
            | None => conn_Close conn (emit (EvNewStream p ServiceProtocol) w).2
            | Some stream =>
                conn_Close conn
                  (stream_Close stream
                     (proxy (OfStream stream) (OfConn conn)
                        (emit (EvNewStream p ServiceProtocol) w).2).2).2
            end
        end
    end.
Proof.
  cbv [ConnectHandler mbind M_bind Ledger_GetKey fst snd].
  destruct (entry ServicesLedgerKey serviceID w) as [d|]; cbn [negb]; [|done].
  fold (recorded_owner d).
  destruct (peer_Decode (recorded_owner d)) as [p|]; [|done].
  cbv [NewStream mbind M_bind mret M_ret fst snd].
  by destruct (host_NewStream p ServiceProtocol).
Qed.

(** No connection, served or not, changes the ledger snapshot. *)
Lemma ConnectHandler_storage serviceID conn w :
  storage (ConnectHandler serviceID conn w).2 = storage w.
Proof.
  rewrite ConnectHandler_run.
  destruct (entry ServicesLedgerKey serviceID w) as [d|]; [|done].
  destruct (peer_Decode (recorded_owner d)) as [p|]; [|done].
  by destruct (host_NewStream p ServiceProtocol).
Qed.

Lemma accept_loop_storage serviceID accepted :
  ∀ w, storage (accept_loop serviceID accepted w).2 = storage w.
Proof.
  induction accepted as [|[conn|] rest IH]; intros w; cbn [accept_loop];
    [done | | apply IH].
  change (storage
            (accept_loop serviceID rest (ConnectHandler serviceID conn w).2).2
          = storage w).
  by rewrite IH, ConnectHandler_storage.
Qed.

(** C7: for an accepted local connection, when the services entry is
    missing, or its recorded owner does not decode to a peer, the handler
    closes that connection and does nothing else; when the owner decodes
    but the outbound stream cannot be opened, the handler makes the failed
    attempt and then closes that connection and does nothing else.  In all
    three cases nothing is proxied, no other endpoint is closed and the
    ledger snapshot is as before; nor does any sequence of accepted
    connections change the snapshot. *)
Theorem ConnectHandler_resolution_failure (serviceID : string) (conn : Conn)
    (w : World) :
  (entry ServicesLedgerKey serviceID w = None →
   issued (ConnectHandler serviceID conn) w = [EvClose (OfConn conn)]
   ∧ storage (ConnectHandler serviceID conn w).2 = storage w)
  ∧ (∀ d,
       entry ServicesLedgerKey serviceID w = Some d →
       peer_Decode (recorded_owner d) = None →
       issued (ConnectHandler serviceID conn) w = [EvClose (OfConn conn)]
       ∧ storage (ConnectHandler serviceID conn w).2 = storage w)
  ∧ (∀ d p,
       entry ServicesLedgerKey serviceID w = Some d →
       peer_Decode (recorded_owner d) = Some p →
       host_NewStream p ServiceProtocol = None →
       issued (ConnectHandler serviceID conn) w
       = [EvNewStream p ServiceProtocol; EvClose (OfConn conn)]
       ∧ storage (ConnectHandler serviceID conn w).2 = storage w)
  ∧ (∀ accepted, storage (accept_loop serviceID accepted w).2 = storage w).
Proof.
  split; [|split; [|split]]; [| | |intros; apply accept_loop_storage];
    unfold issued; rewrite ConnectHandler_run.
  - intros ->. cbn. by rewrite drop_app_length.
  - intros d -> ->. cbn. by rewrite drop_app_length.
  - intros d p -> -> ->. cbn. by rewrite <- app_assoc, drop_app_length.
Qed.

(** ** Stream handlers of a node *)

(** C10: [ExposeService] stores its handler under the one tag
    [ServiceProtocol].  After two calls the function stored under that tag
    is the second call's; an inbound stream under that tag is handled with
    the second call's service name and destination; the first call's
    handler is stored under no tag unless it equals the second's or was
    already stored, under another tag, before; and both publish closures
    stay registered. *)
Theorem ExposeService_shadows (e : EdgeVPN) (s1 d1 s2 d2 : string) :
  StreamHandlers (ExposeService (ExposeService e s1 d1) s2 d2)
    !! ServiceProtocol = Some (HandlerOf s2 d2)
  ∧ (∀ stream w,
       serve (ExposeService (ExposeService e s1 d1) s2 d2)
         ServiceProtocol stream w
       = ServiceHandler s2 d2 stream w)
  ∧ (∀ proto,
       StreamHandlers (ExposeService (ExposeService e s1 d1) s2 d2) !! proto
       = Some (HandlerOf s1 d1) →
       (s1 = s2 ∧ d1 = d2)
       ∨ (proto ≠ ServiceProtocol
          ∧ StreamHandlers e !! proto = Some (HandlerOf s1 d1)))
  ∧ (∀ stream w,
       d1 ≠ d2 →
       EvDial d1
       ∉ issued (serve (ExposeService (ExposeService e s1 d1) s2 d2)
                   ServiceProtocol stream) w)
  ∧ announced (ExposeService (ExposeService e s1 d1) s2 d2)
    = announced e ++ [PublishOf s1; PublishOf s2].
Proof.
  assert (StreamHandlers (ExposeService (ExposeService e s1 d1) s2 d2)
            !! ServiceProtocol = Some (HandlerOf s2 d2)) as Hlast
    by apply lookup_insert_eq.
  split; [done|]. split; [|split; [|split]].
  - intros stream w. unfold serve. by rewrite Hlast.
  - intros proto. cbn [ExposeService StreamHandlers].
    destruct (decide (proto = ServiceProtocol)) as [->|Hne].
    + rewrite lookup_insert_eq. intros [= -> ->]. by left.
    + rewrite !lookup_insert_ne by done. by right.
  - intros stream w Hne Hin. apply Hne.
    unfold issued, serve in Hin. rewrite Hlast in Hin. cbn [run_handler] in Hin.
    by apply (ServiceHandler_dials s2 d2 stream w d1) in Hin as [? _].
  - cbn. by rewrite <- app_assoc.
Qed.

End Properties.

(** * The copy protocol *)

Lemma copy_invariant_init : CopyProtocol.invariant CopyProtocol.init.
Proof. by repeat split. Qed.

Lemma copy_invariant_step l s s' :
  CopyProtocol.invariant s →
  CopyProtocol.step l s = Some s' →
  CopyProtocol.invariant s'.
Proof.
  destruct s as [h f b n sf sb r sc cc].
  unfold CopyProtocol.invariant. cbn.
  intros (Hf & Hb & Hn & Hr & Hsc & Hcc & Hh) Hstep.
  destruct l as [| | d | d | | |];
    cbn in Hstep; unfold CopyProtocol.send, CopyProtocol.recv in Hstep;
    try destruct d; cbn in Hstep;
    destruct h, f, b; try destruct n; try case_decide;
    simplify_eq/=; repeat split; try done; try lia;
    by destruct Hh.
Qed.

Lemma copy_invariant_run schedule :
  ∀ s s',
    CopyProtocol.invariant s →
    CopyProtocol.run schedule s = Some s' →
    CopyProtocol.invariant s'.
Proof.
  induction schedule as [|l rest IH]; intros s s' Hinv Hrun.
  - by simplify_eq/=.
  - cbn in Hrun. destruct (CopyProtocol.step l s) as [s1|] eqn:Hstep; [|done].
    eapply IH; [|done]. by eapply copy_invariant_step.
Qed.

Lemma copy_invariant_reachable s :
  CopyProtocol.reachable s → CopyProtocol.invariant s.
Proof.
  intros [schedule Hrun].
  eapply copy_invariant_run; [apply copy_invariant_init | done].
Qed.

(** C9: the channel has room for two values.  In every state the three
    tasks can reach, under any interleaving: each copy task has sent at
    most once, and exactly once when it has returned; a copy task that
    stands at its send can complete it (the buffer is not full); the
    handler has received at most once, an endpoint is closed only after
    that one receive, and the receive can complete as soon as either task
    has returned, and not before.  For either direction there is a run in
    which only that direction has finished and the handler has closed both
    endpoints while the other task is still copying. *)
Theorem copy_first_signal_teardown :
  CopyProtocol.capacity = 2%nat
  ∧ (∀ s,
       CopyProtocol.reachable s →
       (∀ d, (CopyProtocol.sent d s ≤ 1)%nat
             ∧ (CopyProtocol.sent d s = 1%nat
                ↔ CopyProtocol.copier d s = CopyProtocol.Returned))
       ∧ (∀ d, CopyProtocol.copier d s = CopyProtocol.AtSend →
               is_Some (CopyProtocol.step (CopyProtocol.Send d) s))
       ∧ (CopyProtocol.received s ≤ 1)%nat
       ∧ (CopyProtocol.stream_closed s = true
          ∨ CopyProtocol.conn_closed s = true →
          CopyProtocol.received s = 1%nat)
       ∧ (CopyProtocol.caller s = CopyProtocol.AtRecv →
          (is_Some (CopyProtocol.step CopyProtocol.Recv s)
           ↔ ∃ d, CopyProtocol.copier d s = CopyProtocol.Returned)))
  ∧ (∀ d, ∃ s,
       CopyProtocol.run (CopyProtocol.one_sided d) CopyProtocol.init = Some s
       ∧ CopyProtocol.caller s = CopyProtocol.Finished
       ∧ CopyProtocol.stream_closed s = true
       ∧ CopyProtocol.conn_closed s = true
       ∧ CopyProtocol.sent d s = 1%nat
       ∧ CopyProtocol.copier (CopyProtocol.other d) s = CopyProtocol.InCopy
       ∧ CopyProtocol.sent (CopyProtocol.other d) s = 0%nat).
Proof.
  split; [done|]. split.
  - intros s Hreach. apply copy_invariant_reachable in Hreach.
    destruct s as [h f b n sf sb r sc cc].
    destruct Hreach as (Hf & Hb & Hn & Hr & Hsc & Hcc & Hh). cbn in *.
    split; [|split; [|split; [|split]]].
    + intros [|]; cbn; [destruct f | destruct b]; subst;
        (split; [lia | split; (done || lia)]).
    + intros [|]; cbn; intros Hd; rewrite Hd; unfold CopyProtocol.send; cbn;
        (case_decide as Hfull; [done|]);
        unfold CopyProtocol.capacity in Hfull;
        destruct f, b; simplify_eq; lia.
    + destruct h; lia.
    + intros [-> | ->]; destruct h; done.
    + intros ->. unfold CopyProtocol.recv. cbn. split.
      * intros Hsome. destruct n as [|n]; [by destruct Hsome|].
        destruct f; try (by exists CopyProtocol.Fwd);
          destruct b; try (by exists CopyProtocol.Bwd); lia.
      * intros [[|] Hd]; cbn in Hd; subst; destruct n; (done || lia).
  - intros [|]; eexists; repeat split.
Qed.

(** * The properties on the concrete environment *)

Example AvailableNodes_demo :
  (@AvailableNodes Demo.frozen Demo.w_heartbeats).1 = ["peerA"; "peerF"].
Proof. vm_compute. reflexivity. Qed.

Example Alive_tick_demo :
  @issued Demo.ticking _
    (@Alive_tick Demo.ticking "peerA" (2 * time.Minute) Demo.first_run.1)
    Demo.first_run.2
  = [EvAdd "healthcheck" {[ "peerA" := VString "2021-11-01T10:01:00Z" ]};
     EvLeader ["peerA"]; EvDeleteBucket "healthcheck"].
Proof. vm_compute. reflexivity. Qed.

Example Publish_tick_demo :
  @issued Demo.frozen _ (@Publish_tick Demo.frozen "peerA" "web") Demo.w_none
  = [EvAdd "services"
       {[ "web" := VService (types.mkService "peerA" "web") ]}]
  ∧ @issued Demo.frozen _ (@Publish_tick Demo.frozen "peerA" "web")
      (@Publish_tick Demo.frozen "peerA" "web" Demo.w_none).2
    = [].
Proof. split; vm_compute; reflexivity. Qed.

(** The peer whose heartbeat is exactly fifteen minutes old is left out. *)
Lemma AvailableNodes_live_iff_witness :
  ("peerB" ∈ (@AvailableNodes Demo.frozen Demo.w_heartbeats).1
   ↔ Demo.T0 < (Demo.T0 - 15 * time.Minute) + 15 * time.Minute)
  ∧ (Demo.T0 = (Demo.T0 - 15 * time.Minute) + 15 * time.Minute →
     "peerB" ∉ (@AvailableNodes Demo.frozen Demo.w_heartbeats).1).
Proof.
  apply (@AvailableNodes_live_iff Demo.frozen Demo.w_heartbeats 4 "peerB"
           (Some (VString "2021-11-01T09:45:00Z")) "2021-11-01T09:45:00Z"
           (Demo.T0 - 15 * time.Minute));
    vm_compute; reflexivity.
Defined.

(** The peer whose heartbeat reads "yesterday" is left out. *)
Lemma AvailableNodes_malformed_excluded_witness :
  "peerD" ∉ (@AvailableNodes Demo.frozen Demo.w_heartbeats).1.
Proof.
  eapply proj1.
  apply (@AvailableNodes_malformed_excluded Demo.frozen Demo.w_heartbeats 5
           "peerD" (Some (VString "yesterday"))).
  - vm_compute. reflexivity.
  - vm_compute. discriminate.
  - vm_compute. reflexivity.
  - right. exists "yesterday". split; vm_compute; reflexivity.
Defined.

(** The first run of [Demo.scrub_run] deletes the bucket: peerA is alone
    and so the leader, and three minutes have passed since the start. *)
Lemma Alive_tick_delete_guarded_witness :
  @HealthCheckKey Demo.ticking = @HealthCheckKey Demo.ticking
  ∧ @live_set Demo.ticking "peerA" Demo.w_started ≠ []
  ∧ @monoclock Demo.ticking 0 + 2 * time.Minute
    ≤ @monoclock Demo.ticking (@check_reading Demo.ticking "peerA" Demo.w_started)
  ∧ @Leader Demo.ticking (@live_set Demo.ticking "peerA" Demo.w_started)
    = "peerA".
Proof.
  apply (proj1 (@Alive_tick_delete_guarded Demo.ticking "peerA"
                  (2 * time.Minute) 0 Demo.w_started)).
  apply list_elem_of_In. vm_compute. right. right. left. reflexivity.
Defined.

Lemma ticking_monotone n m :
  (n ≤ m)%nat → @monoclock Demo.ticking n ≤ @monoclock Demo.ticking m.
Proof. cbn. unfold time.Minute, time.Second, time.Nanosecond. lia. Qed.

(** Both runs of [Demo.scrub_run] delete the bucket; the second test comes
    three minutes after the first reset. *)
Lemma scrub_at_most_once_per_interval_witness :
  @monoclock Demo.ticking
    (S (@check_reading Demo.ticking "peerA" Demo.first_run.2))
  + 2 * time.Minute
  ≤ @monoclock Demo.ticking (@check_reading Demo.ticking "peerA" Demo.second_run.2).
Proof.
  apply (proj2 (proj2 (@scrub_at_most_once_per_interval Demo.ticking "peerA"
                         (2 * time.Minute))
                  ticking_monotone [∅; ∅] Demo.w_empty 0%nat 1%nat
                  Demo.first_run.1 Demo.first_run.2
                  Demo.second_run.1 Demo.second_run.2
                  ltac:(lia) eq_refl eq_refl)).
  - apply list_elem_of_In. vm_compute. right. right. left. reflexivity.
  - apply list_elem_of_In. vm_compute. right. right. left. reflexivity.
Defined.

(** Publishing web from peerA on an empty ledger, twice. *)
Lemma Publish_tick_idempotent_witness :
  @issued Demo.frozen _ (@Publish_tick Demo.frozen "peerA" "web")
    (@Publish_tick Demo.frozen "peerA" "web" Demo.w_none).2 = []
  ∧ (length (@issued Demo.frozen _ (@Publish_tick Demo.frozen "peerA" "web")
               Demo.w_none)
     + length (@issued Demo.frozen _ (@Publish_tick Demo.frozen "peerA" "web")
                 (@Publish_tick Demo.frozen "peerA" "web" Demo.w_none).2)
     ≤ 1)%nat.
Proof.
  apply (proj2 (proj2 (@Publish_tick_idempotent Demo.frozen "peerA" "web"))
           eq_refl Demo.w_none
           (@Publish_tick Demo.frozen "peerA" "web" Demo.w_none).2 eq_refl).
Defined.

(** A stream from peerC, which holds no grant, is reset and nothing is
    dialled. *)
Lemma ServiceHandler_admission_witness :
  @issued Demo.frozen _
    (@ServiceHandler Demo.frozen "web" "127.0.0.1:8080" (mkStream 3 "peerC"))
    Demo.w_granted
  = [EvReset (mkStream 3 "peerC")]
  ∧ (∀ addr,
       EvDial addr
       ∉ @issued Demo.frozen _
           (@ServiceHandler Demo.frozen "web" "127.0.0.1:8080"
              (mkStream 3 "peerC")) Demo.w_granted)
  ∧ storage (@ServiceHandler Demo.frozen "web" "127.0.0.1:8080"
               (mkStream 3 "peerC") Demo.w_granted).2
    = storage Demo.w_granted.
Proof.
  apply (proj1 (@ServiceHandler_admission Demo.frozen "web" "127.0.0.1:8080"
                  (mkStream 3 "peerC") Demo.w_granted)).
  vm_compute. reflexivity.
Defined.

(** peerB holds a grant: its closure leaves the ledger alone. *)
Lemma Grant_tick_never_refreshes_witness :
  @Grant_tick Demo.frozen "peerB" Demo.w_granted = (tt, Demo.w_granted)
  ∧ @issued Demo.frozen _ (@Grant_tick Demo.frozen "peerB") Demo.w_granted = []
  ∧ ∀ n, Nat.iter n (λ w', (@Grant_tick Demo.frozen "peerB" w').2)
           Demo.w_granted = Demo.w_granted.
Proof.
  apply (proj2 (@Grant_tick_never_refreshes Demo.frozen "peerB")
           Demo.w_granted).
  eexists. vm_compute. reflexivity.
Defined.

(** web is registered to peerB, to whom no stream can be opened. *)
Lemma ConnectHandler_resolution_failure_witness :
  @issued Demo.frozen _ (@ConnectHandler Demo.frozen "web" 9%nat)
    (Demo.w_web (VService (types.mkService "peerB" "web")))
  = [EvNewStream "peerB" (@ServiceProtocol Demo.frozen); EvClose (OfConn 9%nat)]
  ∧ storage (@ConnectHandler Demo.frozen "web" 9%nat
               (Demo.w_web (VService (types.mkService "peerB" "web")))).2
    = storage (Demo.w_web (VService (types.mkService "peerB" "web"))).
Proof.
  apply (proj1 (proj2 (proj2
           (@ConnectHandler_resolution_failure Demo.frozen "web" 9%nat
              (Demo.w_web (VService (types.mkService "peerB" "web"))))))
           (Some (VService (types.mkService "peerB" "web"))) "peerB");
    vm_compute; reflexivity.
Defined.

(** After the second task has sent and the handler has received, the
    first task, once its copy returns, can still send. *)
Lemma copy_first_signal_teardown_witness :
  is_Some
    (CopyProtocol.step (CopyProtocol.Send CopyProtocol.Fwd)
       (default CopyProtocol.init
          (CopyProtocol.run
             (CopyProtocol.one_sided CopyProtocol.Bwd
              ++ [CopyProtocol.CopyReturns CopyProtocol.Fwd])
             CopyProtocol.init))).
Proof.
  apply (proj1 (proj2 (proj1 (proj2 copy_first_signal_teardown) _
                          (ex_intro _
                             (CopyProtocol.one_sided CopyProtocol.Bwd
                              ++ [CopyProtocol.CopyReturns CopyProtocol.Fwd])
                             eq_refl)))
           CopyProtocol.Fwd).
  reflexivity.
Defined.

(** Exposing ssh after web: a stream of the granted peerB reaches the
    second destination only. *)
Lemma ExposeService_shadows_witness :
  EvDial "127.0.0.1:8080"
  ∉ @issued Demo.frozen _
      (@serve Demo.frozen
         (@ExposeService Demo.frozen
            (@ExposeService Demo.frozen
               (mkEdgeVPN "peerA" ∅ []) "web" "127.0.0.1:8080")
            "ssh" "127.0.0.1:22")
         (@ServiceProtocol Demo.frozen) (mkStream 3 "peerB"))
      Demo.w_granted.
Proof.
  apply (proj1 (proj2 (proj2 (proj2
           (@ExposeService_shadows Demo.frozen
              (mkEdgeVPN "peerA" ∅ [])
              "web" "127.0.0.1:8080" "ssh" "127.0.0.1:22"))))).
  discriminate.
Defined.

(** * Further properties of the two files *)

Section MoreProperties.
Context `{External}.

(** ** [AvailableNodes] *)

(** The comparison of the loop body only ever looks at the wall clock: a
    parsed time carries no monotonic reading. *)
Lemma live_at_wall d n :
  live_at d n
  = bool_decide
      (wallclock n
       < time.wall (time_Parse (default "" (Unmarshal_string d)))
         + 15 * time.Minute).
Proof.
  unfold live_at, time_Parse.
  by destruct (Parse_RFC3339 (default "" (Unmarshal_string d))).
Qed.

Lemma live_keys_sublist entries :
  ∀ n, live_keys entries n `sublist_of` entries.*1.
Proof.
  induction entries as [|[u d] rest IH]; intros n; [done|].
  cbn [live_keys fmap list_fmap fst snd].
  destruct (live_at d n); cbn [app].
  - by apply sublist_skip.
  - by apply sublist_cons.
Qed.

(** X1: [AvailableNodes] returns pairwise distinct keys of the healthcheck
    bucket, no more of them than the bucket holds; it reads the clock once
    per entry and otherwise leaves the world alone; without a healthcheck
    bucket it returns the empty list and reads no clock. *)
Theorem AvailableNodes_sound (w : World) :
  NoDup (AvailableNodes w).1
  ∧ (∀ u, u ∈ (AvailableNodes w).1 → is_Some (entry HealthCheckKey u w))
  ∧ (length (AvailableNodes w).1
     ≤ size (default ∅ (storage w !! HealthCheckKey)))%nat
  ∧ (AvailableNodes w).2
    = advance (size (default ∅ (storage w !! HealthCheckKey))) w
  ∧ (storage w !! HealthCheckKey = None → AvailableNodes w = ([], w)).
Proof.
  rewrite AvailableNodes_run. cbn [fst snd].
  set (bucket := default ∅ (storage w !! HealthCheckKey)).
  pose proof (live_keys_sublist (map_to_list bucket) (readings w)) as Hsub.
  split; [|split; [|split; [|split]]].
  - apply (sublist_NoDup _ (map_to_list bucket).*1); [|done].
    apply NoDup_fst_map_to_list.
  - intros u Hu. apply (elem_of_sublist _ _ _ Hu) in Hsub as Hin'.
    clear Hu. rename Hin' into Hu.
    apply list_elem_of_fmap in Hu as ([u' d] & -> & Hin).
    apply elem_of_map_to_list in Hin. unfold entry. subst bucket.
    destruct (storage w !! HealthCheckKey) as [b|]; cbn in *; [by eexists|].
    by rewrite lookup_empty in Hin.
  - apply sublist_length in Hsub.
    by rewrite length_fmap, length_map_to_list in Hsub.
  - by rewrite length_map_to_list.
  - intros Hnone. subst bucket. rewrite Hnone. cbn.
    rewrite map_to_list_empty. cbn. unfold advance.
    rewrite Nat.add_0_r. by destruct w.
Qed.

Lemma live_keys_frozen entries n0 :
  ∀ n,
    (∀ j, (j < length entries)%nat → wallclock (n + j) = wallclock n0) →
    live_keys entries n
    = (filter (λ ut, live_at ut.2 n0 = true) entries).*1.
Proof.
  induction entries as [|[u d] rest IH]; intros n Hfrozen; [done|].
  cbn [live_keys fst snd]. rewrite filter_cons. cbn [snd].
  assert (live_at d n = live_at d n0) as ->.
  { rewrite !live_at_wall. f_equal.
    rewrite <- (Hfrozen 0%nat) by (cbn; lia). by rewrite Nat.add_0_r. }
  rewrite (IH (S n)).
  - by destruct (decide (live_at d n0 = true)) as [->| ->%not_true_is_false].
  - intros j Hj. rewrite <- (Hfrozen (S j)) by (cbn; lia).
    f_equal. lia.
Qed.

(** X2: while the wall clock stands still over the loop, the order in which
    [range] meets the entries only permutes the result. *)
Theorem AvailableNodes_range_order_irrelevant
    (entries entries' : list (string * Data)) (w : World) :
  entries ≡ₚ entries' →
  (∀ j, (j < length entries)%nat →
        wallclock (readings w + j) = wallclock (readings w)) →
  (AvailableNodes_range entries [] w).1
  ≡ₚ (AvailableNodes_range entries' [] w).1.
Proof.
  intros Hperm Hfrozen. rewrite !AvailableNodes_range_run. cbn [fst app].
  rewrite !(live_keys_frozen _ (readings w)).
  - by rewrite Hperm.
  - intros j Hj. apply Hfrozen. by rewrite Hperm.
  - done.
Qed.


(** ** The keep-alive closure *)

(** X4: every run of the closure first writes one heartbeat, under the
    node's own id and stamped with the time just read; it makes at most two
    more calls, none of them a write; and [utils.Leader] is only ever called
    on the live-peer set just recomputed, which is then not empty. *)
Theorem Alive_tick_heartbeat_first (self : string) (scrubTime : Z)
    (t : time.Time) (w : World) :
  ∃ rest,
    issued (Alive_tick self scrubTime t) w
    = EvAdd HealthCheckKey
        {[ self := VString (Format_RFC3339 (reading (readings w))) ]}
      :: rest
    ∧ (∀ b m, EvAdd b m ∉ rest)
    ∧ (length rest ≤ 2)%nat
    ∧ (∀ nodes, EvLeader nodes ∈ rest →
                nodes = live_set self w ∧ nodes ≠ []).
Proof.
  rewrite Alive_tick_issued. eexists. split; [done|].
  destruct (bool_decide_reflect (length (live_set self w) = 0%nat))
    as [Hlen|Hlen].
  - split; [|split; [cbn; lia|]].
    + intros b m Hin. by elem_of_cases Hin.
    + intros nodes Hin. by elem_of_cases Hin.
  - assert (live_set self w ≠ []) as Hne
      by (intros Hnil; by rewrite Hnil in Hlen).
    destruct (enters_branch self scrubTime t w
              && bool_decide (Leader (live_set self w) = self));
      (split; [|split; [cbn; lia|]]).
    + intros b m Hin. by elem_of_cases Hin.
    + intros nodes Hin. elem_of_cases Hin; by simplify_eq.
    + intros b m Hin. by elem_of_cases Hin.
    + intros nodes Hin. elem_of_cases Hin; by simplify_eq.
Qed.

Lemma entry_after_heartbeat self w :
  entry HealthCheckKey self (after_heartbeat self w)
  = Some (Marshal (VString (Format_RFC3339 (reading (readings w))))).
Proof. unfold after_heartbeat. apply entry_Ledger_Add. Qed.

(** X5: the node counts itself live in the run that wrote its heartbeat.
    When the stored heartbeat decodes to the string that was written, that
    string parses to an instant [stamp], and the wall clock stays below
    [stamp + 15 minutes] while the loop runs, the node's own id is in the
    recomputed live-peer set, so the run goes on to call [utils.Leader]. *)
Theorem Alive_tick_self_live (self : string) (scrubTime : Z) (t : time.Time)
    (w : World) (stamp : Z) :
  Unmarshal_string (Marshal (VString (Format_RFC3339 (reading (readings w)))))
  = Some (Format_RFC3339 (reading (readings w))) →
  Parse_RFC3339 (Format_RFC3339 (reading (readings w))) = Some stamp →
  (∀ j, (j < size (default ∅ (storage (after_heartbeat self w)
                                 !! HealthCheckKey)))%nat →
        wallclock (S (readings w) + j) < stamp + 15 * time.Minute) →
  self ∈ live_set self w
  ∧ EvLeader (live_set self w) ∈ issued (Alive_tick self scrubTime t) w.
Proof.
  intros Hdec Hparse Hclock.
  assert (self ∈ live_set self w) as Hlive.
  { pose proof (entry_after_heartbeat self w) as Hent.
    unfold entry in Hent. unfold live_set. rewrite AvailableNodes_run.
    cbn [fst].
    destruct (storage (after_heartbeat self w) !! HealthCheckKey)
      as [bucket|] eqn:Hb; [|done].
    cbn in Hent, Hclock |- *.
    destruct (bucket_entry_position bucket _ _ Hent) as [j Hj].
    apply (proj2 (elem_of_live_keys_NoDup _ _ _ _ _
                    (NoDup_fst_map_to_list bucket) Hj)).
    rewrite (live_at_parsed _ _ stamp _ Hdec Hparse).
    apply bool_decide_eq_true. apply Hclock.
    apply lookup_lt_Some in Hj. by rewrite length_map_to_list in Hj. }
  split; [done|]. rewrite Alive_tick_issued.
  rewrite bool_decide_eq_false_2.
  - apply elem_of_cons. right. apply elem_of_cons. by left.
  - intros Hlen. destruct (live_set self w); [by apply elem_of_nil in Hlive|].
    done.
Qed.

(** X6: what a run leaves in the local snapshot.  Unless it issued
    [DeleteBucket], the node's heartbeat of this run is stored under its
    id; if it did, the healthcheck bucket is gone, this run's heartbeat
    with it.  No other bucket is touched either way. *)
Theorem Alive_tick_snapshot (self : string) (scrubTime : Z) (t : time.Time)
    (w : World) :
  (EvDeleteBucket HealthCheckKey ∉ issued (Alive_tick self scrubTime t) w →
   entry HealthCheckKey self (Alive_tick self scrubTime t w).2
   = Some (Marshal (VString (Format_RFC3339 (reading (readings w))))))
  ∧ (EvDeleteBucket HealthCheckKey ∈ issued (Alive_tick self scrubTime t) w →
     storage (Alive_tick self scrubTime t w).2 !! HealthCheckKey = None)
  ∧ (∀ b, b ≠ HealthCheckKey →
          storage (Alive_tick self scrubTime t w).2 !! b = storage w !! b).
Proof.
  pose proof (entry_after_heartbeat self w) as Hent. unfold entry in Hent.
  rewrite Alive_tick_issued. unfold entry, enters_branch.
  rewrite Alive_tick_run. cbv zeta.
  assert (∀ b, b ≠ HealthCheckKey →
               storage (after_heartbeat self w) !! b = storage w !! b)
    as Hframe.
  { intros b Hb. cbn. by rewrite lookup_insert_ne. }
  destruct (bool_decide (length (live_set self w) = 0%nat));
    [|destruct (time.After _ _);
      [|destruct (bool_decide (Leader (live_set self w) = self))]];
    cbn [fst snd storage negb andb]; (split; [|split]); try done.
  all: try (intros Hin; by elem_of_cases Hin).
  - intros Hnot. exfalso. apply Hnot. do 2 (apply elem_of_cons; right).
    apply elem_of_cons. by left.
  - intros _. apply lookup_delete_eq.
  - intros b Hb. rewrite lookup_delete_ne by done. by apply Hframe.
Qed.

(** ** The stream handlers *)


(** The calls the connect-side handler adds to the trace. *)
Lemma ConnectHandler_trace serviceID conn w :
  trace (ConnectHandler serviceID conn w).2
  = trace w
    ++ match entry ServicesLedgerKey serviceID w with
       | None => [EvClose (OfConn conn)]
       | Some d =>
           match peer_Decode (recorded_owner d) with
           | None => [EvClose (OfConn conn)]
           | Some p =>
               EvNewStream p ServiceProtocol
               :: match host_NewStream p ServiceProtocol with
                  | None => [EvClose (OfConn conn)]
                  | Some stream =>
                      [EvProxy (OfStream stream) (OfConn conn);
                       EvClose (OfStream stream); EvClose (OfConn conn)]
                  end
           end
       end.
Proof.
  rewrite ConnectHandler_run.
  destruct (entry ServicesLedgerKey serviceID w) as [d|]; [|done].
  destruct (peer_Decode (recorded_owner d)) as [p|]; [|done].
  destruct (host_NewStream p ServiceProtocol); cbn;
    by rewrite <- ?app_assoc.
Qed.

Lemma ConnectHandler_issued serviceID conn w :
  issued (ConnectHandler serviceID conn) w
  = match entry ServicesLedgerKey serviceID w with
    | None => [EvClose (OfConn conn)]
    | Some d =>
        match peer_Decode (recorded_owner d) with
        | None => [EvClose (OfConn conn)]
        | Some p =>
            EvNewStream p ServiceProtocol
            :: match host_NewStream p ServiceProtocol with
               | None => [EvClose (OfConn conn)]
               | Some stream =>
                   [EvProxy (OfStream stream) (OfConn conn);
                    EvClose (OfStream stream); EvClose (OfConn conn)]
               end
        end
    end.
Proof.
  unfold issued. by rewrite ConnectHandler_trace, drop_app_length.
Qed.


Lemma accept_loop_trace serviceID accepted :
  ∀ w,
    trace (accept_loop serviceID accepted w).2
    = trace w
      ++ mjoin ((λ c, issued (ConnectHandler serviceID c) w)
                   <$> omap id accepted).
Proof.
  induction accepted as [|[conn|] rest IH]; intros w;
    cbn [accept_loop omap list_omap fmap list_fmap mjoin list_join id].
  - cbn. by rewrite app_nil_r.
  - change (trace
              (accept_loop serviceID rest (ConnectHandler serviceID conn w).2).2
            = trace w
              ++ issued (ConnectHandler serviceID conn) w
              ++ mjoin ((λ c, issued (ConnectHandler serviceID c) w)
                           <$> omap id rest)).
    rewrite IH, ConnectHandler_trace, <- ConnectHandler_issued, <- app_assoc.
    do 3 f_equal. apply list_fmap_ext. intros _ c _.
    rewrite !ConnectHandler_issued. unfold entry.
    by rewrite ConnectHandler_storage.
  - apply IH.
Qed.


Lemma ServiceHandler_readings serviceID dstaddress stream w :
  readings (ServiceHandler serviceID dstaddress stream w).2 = readings w.
Proof.
  cbv [ServiceHandler mbind M_bind Ledger_GetKey fst snd].
  destruct (entry UsersLedgerKey (RemotePeer stream) w); cbn [negb]; [|done].
  cbv [Dial mbind M_bind mret M_ret emit fst snd].
  by destruct (net_Dial dstaddress).
Qed.

Lemma ConnectHandler_readings serviceID conn w :
  readings (ConnectHandler serviceID conn w).2 = readings w.
Proof.
  rewrite ConnectHandler_run.
  destruct (entry ServicesLedgerKey serviceID w) as [d|]; [|done].
  destruct (peer_Decode (recorded_owner d)) as [p|]; [|done].
  by destruct (host_NewStream p ServiceProtocol).
Qed.

Lemma accept_loop_readings serviceID accepted :
  ∀ w, readings (accept_loop serviceID accepted w).2 = readings w.
Proof.
  induction accepted as [|[conn|] rest IH]; intros w; cbn [accept_loop];
    [done | | apply IH].
  change (readings
            (accept_loop serviceID rest (ConnectHandler serviceID conn w).2).2
          = readings w).
  by rewrite IH, ConnectHandler_readings.
Qed.

(** X10: the tunnel only reads the ledger.  Serving an inbound stream under
    any protocol tag, and serving any sequence of accepted connections,
    leaves the ledger snapshot as it was, reads no clock, and makes no call
    to [Add], [DeleteBucket] or [utils.Leader]. *)
Theorem tunnel_never_writes :
  (∀ (e : EdgeVPN) proto stream w,
     storage (serve e proto stream w).2 = storage w
     ∧ readings (serve e proto stream w).2 = readings w
     ∧ ∀ ev, ev ∈ issued (serve e proto stream) w → ledger_call ev = false)
  ∧ (∀ serviceID accepted w,
       storage (accept_loop serviceID accepted w).2 = storage w
       ∧ readings (accept_loop serviceID accepted w).2 = readings w
       ∧ ∀ ev, ev ∈ issued (accept_loop serviceID accepted) w →
               ledger_call ev = false).
Proof.
  split.
  - intros e proto stream w. unfold serve.
    destruct (StreamHandlers e !! proto) as [[serviceID dstaddress]|].
    + cbn [run_handler].
      split; [apply ServiceHandler_storage|].
      split; [apply ServiceHandler_readings|].
      intros ev. rewrite ServiceHandler_issued.
      destruct (entry UsersLedgerKey (RemotePeer stream) w);
        [destruct (net_Dial dstaddress)|];
        intros Hin; elem_of_cases Hin; by subst.
    + split; [done|]. split; [done|].
      intros ev. rewrite (issued_nil tt). by intros ?%elem_of_nil.
  - intros serviceID accepted w.
    split; [apply accept_loop_storage|].
    split; [apply accept_loop_readings|].
    intros ev. unfold issued at 1.
    rewrite accept_loop_trace, drop_app_length.
    intros Hin. apply list_elem_of_join in Hin as (evs & Hev & Hevs).
    apply list_elem_of_fmap in Hevs as (c & -> & _).
    rewrite ConnectHandler_issued in Hev.
    destruct (entry ServicesLedgerKey serviceID w) as [d|];
      [destruct (peer_Decode (recorded_owner d)) as [p|];
       [destruct (host_NewStream p ServiceProtocol)|]|];
      elem_of_cases Hev; by subst.
Qed.

(** ** The registry closures *)

(** A write of one key leaves every other key, of any bucket, as it was. *)
Lemma entry_Ledger_Add_ne b k v b' k' w :
  (b', k') ≠ (b, k) →
  entry b' k' (Ledger_Add b {[ k := v ]} w).2 = entry b' k' w.
Proof.
  intros Hne. unfold entry. cbn.
  destruct (decide (b' = b)) as [->|Hb]; [|by rewrite lookup_insert_ne].
  assert (k' ≠ k) as Hk by congruence.
  rewrite lookup_insert_eq. cbn.
  rewrite lookup_union_r
    by (by rewrite lookup_fmap, lookup_singleton_ne).
  destruct (storage w !! b); [done|]. cbn. apply lookup_empty.
Qed.

Lemma Publish_tick_owner self serviceID w :
  recorded_owner (Marshal (VService (types.mkService self serviceID))) = self →
  ∃ d, entry ServicesLedgerKey serviceID (Publish_tick self serviceID w).2
       = Some d
       ∧ recorded_owner d = self.
Proof.
  intros Hcodec. rewrite Publish_tick_run.
  destruct (entry ServicesLedgerKey serviceID w) as [d|] eqn:Hw;
    [case_bool_decide|]; rewrite ?entry_Ledger_Add; eauto.
Qed.

Lemma Publish_tick_frame self serviceID w b k :
  (b, k) ≠ (ServicesLedgerKey, serviceID) →
  entry b k (Publish_tick self serviceID w).2 = entry b k w.
Proof.
  intros Hne. rewrite Publish_tick_run.
  destruct (entry ServicesLedgerKey serviceID w) as [d|];
    [case_bool_decide|]; by rewrite ?entry_Ledger_Add_ne.
Qed.

(** X11: one evaluation of the publish closure makes this node the
    recorded owner of the service, whatever was recorded before (nothing, a
    value that is no service record, or another peer's claim), provided the
    codec returns the owner it encoded.  It changes no other key of any
    bucket and reads no clock. *)
Theorem Publish_tick_converges (self serviceID : string) (w : World) :
  recorded_owner (Marshal (VService (types.mkService self serviceID))) = self →
  (∃ d, entry ServicesLedgerKey serviceID (Publish_tick self serviceID w).2
        = Some d
        ∧ recorded_owner d = self)
  ∧ (∀ b k, (b, k) ≠ (ServicesLedgerKey, serviceID) →
            entry b k (Publish_tick self serviceID w).2 = entry b k w)
  ∧ readings (Publish_tick self serviceID w).2 = readings w.
Proof.
  intros Hcodec. split; [by apply Publish_tick_owner|].
  split; [intros b k; apply Publish_tick_frame|].
  rewrite Publish_tick_run.
  by destruct (entry ServicesLedgerKey serviceID w) as [d|];
    [case_bool_decide|].
Qed.

Lemma Grant_tick_grants self w :
  is_Some (entry UsersLedgerKey self (Grant_tick self w).2).
Proof.
  rewrite Grant_tick_run.
  destruct (entry UsersLedgerKey self w) as [d|] eqn:Hw;
    [cbn [snd]; by rewrite Hw|].
  by rewrite entry_Ledger_Add.
Qed.

Lemma Grant_tick_frame self w b k :
  (b, k) ≠ (UsersLedgerKey, self) →
  entry b k (Grant_tick self w).2 = entry b k w.
Proof.
  intros Hne. rewrite Grant_tick_run.
  destruct (entry UsersLedgerKey self w) as [d|]; [done|].
  by rewrite entry_Ledger_Add_ne.
Qed.

(** X12: after one evaluation of the grant closure the node holds a grant,
    so a further evaluation changes nothing; any number of successive
    evaluations therefore makes at most one call in all.  The closure
    changes no other key of any bucket. *)
Theorem Grant_tick_once (self : string) (w : World) :
  is_Some (entry UsersLedgerKey self (Grant_tick self w).2)
  ∧ Grant_tick self (Grant_tick self w).2 = (tt, (Grant_tick self w).2)
  ∧ (∀ n, (length (trace (Nat.iter n (λ w', (Grant_tick self w').2) w))
           ≤ S (length (trace w)))%nat)
  ∧ (∀ b k, (b, k) ≠ (UsersLedgerKey, self) →
            entry b k (Grant_tick self w).2 = entry b k w).
Proof.
  pose proof (Grant_tick_grants self w) as [d Hd].
  assert (Grant_tick self (Grant_tick self w).2 = (tt, (Grant_tick self w).2))
    as Hfix by (by rewrite (Grant_tick_run self (Grant_tick self w).2), Hd).
  split; [by eexists|]. split; [done|].
  split; [|intros b k; apply Grant_tick_frame].
  intros [|n]; [cbn; lia|].
  rewrite Nat.iter_succ_r.
  assert (Nat.iter n (λ w', (Grant_tick self w').2) (Grant_tick self w).2
          = (Grant_tick self w).2) as ->.
  { induction n as [|n IH]; [done|]. by rewrite Nat.iter_succ, IH, Hfix. }
  rewrite Grant_tick_run.
  destruct (entry UsersLedgerKey self w); cbn; [lia|].
  rewrite length_app. cbn. lia.
Qed.

(** X13: exposing and connecting compose.  Once the publish closure of the
    exposing node [a] and the grant closure of the connecting node [b] have
    both run on a snapshot, in either order, the connect-side handler of
    [b] asks for a stream to the peer decoded from [a], and the expose-side
    handler of [a] dials its destination for a stream that comes from
    [b]. *)
Theorem expose_connect_compose (a b serviceID dstaddress pa : string)
    (conn : Conn) (id : nat) (w w' : World) :
  recorded_owner (Marshal (VService (types.mkService a serviceID))) = a →
  peer_Decode a = Some pa →
  w' = (Grant_tick b (Publish_tick a serviceID w).2).2
  ∨ w' = (Publish_tick a serviceID (Grant_tick b w).2).2 →
  (∃ rest, issued (ConnectHandler serviceID conn) w'
           = EvNewStream pa ServiceProtocol :: rest)
  ∧ (∃ rest, issued (ServiceHandler serviceID dstaddress (mkStream id b)) w'
             = EvDial dstaddress :: rest).
Proof.
  intros Hcodec Hdec Hw'.
  assert ((∃ d, entry ServicesLedgerKey serviceID w' = Some d
                ∧ recorded_owner d = a)
          ∧ is_Some (entry UsersLedgerKey b w')) as [(d & Hd & Ho) [u Hu]].
  { destruct Hw' as [-> | ->].
    - split; [|apply Grant_tick_grants].
      rewrite Grant_tick_frame by (intros [= ? ?]; done).
      by apply Publish_tick_owner.
    - split; [by apply Publish_tick_owner|].
      rewrite Publish_tick_frame by (intros [= ? ?]; done).
      apply Grant_tick_grants. }
  split.
  - rewrite ConnectHandler_issued, Hd, Ho, Hdec. by eexists.
  - rewrite ServiceHandler_issued. cbn [RemotePeer]. rewrite Hu. by eexists.
Qed.

(** ** Repeated [ExposeService] *)

Lemma ExposeAll_snoc e calls serviceID dstaddress :
  ExposeAll e (calls ++ [(serviceID, dstaddress)])
  = ExposeService (ExposeAll e calls) serviceID dstaddress.
Proof. unfold ExposeAll. by rewrite foldl_app. Qed.

Lemma ExposeAll_handlers calls :
  ∀ e h,
    <[ServiceProtocol := h]> (StreamHandlers (ExposeAll e calls))
    = <[ServiceProtocol := h]> (StreamHandlers e).
Proof.
  induction calls as [|[s d] rest IH]; intros e h; [done|].
  change (ExposeAll e ((s, d) :: rest))
    with (ExposeAll (ExposeService e s d) rest).
  rewrite IH. cbn [ExposeService StreamHandlers]. apply insert_insert_eq.
Qed.

Lemma ExposeAll_announced calls :
  ∀ e, announced (ExposeAll e calls)
       = announced e ++ (PublishOf <$> calls.*1)
       ∧ host_ID (ExposeAll e calls) = host_ID e.
Proof.
  induction calls as [|[s d] rest IH]; intros e.
  - cbn. by rewrite app_nil_r.
  - change (ExposeAll e ((s, d) :: rest))
      with (ExposeAll (ExposeService e s d) rest).
    destruct (IH (ExposeService e s d)) as [-> ->].
    cbn. by rewrite <- app_assoc.
Qed.

(** X14: however many services a node exposes, its stream handlers are
    those it had before with the handler of the last call stored under
    [ServiceProtocol]: every earlier call's handler is gone.  Yet one
    publish closure per call stays registered, in call order, so every
    exposed name keeps being announced. *)
Theorem ExposeAll_last_wins (e : EdgeVPN) (calls : list (string * string))
    (serviceID dstaddress : string) :
  StreamHandlers (ExposeAll e (calls ++ [(serviceID, dstaddress)]))
  = <[ServiceProtocol := HandlerOf serviceID dstaddress]> (StreamHandlers e)
  ∧ announced (ExposeAll e (calls ++ [(serviceID, dstaddress)]))
    = announced e ++ (PublishOf <$> calls.*1) ++ [PublishOf serviceID]
  ∧ host_ID (ExposeAll e (calls ++ [(serviceID, dstaddress)])) = host_ID e.
Proof.
  rewrite ExposeAll_snoc. cbn [ExposeService StreamHandlers announced host_ID].
  destruct (ExposeAll_announced calls e) as [-> ->].
  split; [apply ExposeAll_handlers|]. by rewrite <- app_assoc.
Qed.

End MoreProperties.

(** ** The first run after a scrub *)

Section AfterScrub.
Context `{External}.

Lemma AvailableNodes_elem_entry w u :
  u ∈ (AvailableNodes w).1 → is_Some (entry HealthCheckKey u w).
Proof.
  rewrite AvailableNodes_run. cbn [fst]. intros Hu.
  pose proof (live_keys_sublist
                (map_to_list (default ∅ (storage w !! HealthCheckKey)))
                (readings w)) as Hin.
  apply (elem_of_sublist _ _ _ Hu) in Hin.
  apply list_elem_of_fmap in Hin as ([u' d] & -> & Hin).
  apply elem_of_map_to_list in Hin. unfold entry.
  destruct (storage w !! HealthCheckKey) as [b|]; cbn in *; [by eexists|].
  by rewrite lookup_empty in Hin.
Qed.

(** X18: a run that starts on a snapshot without healthcheck bucket, as
    the bucket-wide delete leaves it, sees at most the node itself alive:
    its live-peer set has at most one element, the node's own id, so the
    only list [utils.Leader] can be called on in that run is the
    one-element list of that id. *)
Theorem Alive_tick_after_scrub (self : string) (scrubTime : Z)
    (t : time.Time) (w : World) :
  storage w !! HealthCheckKey = None →
  (∀ u, u ∈ live_set self w → u = self)
  ∧ (length (live_set self w) ≤ 1)%nat
  ∧ (∀ nodes, EvLeader nodes ∈ issued (Alive_tick self scrubTime t) w →
              nodes = [self]).
Proof.
  intros Hnone.
  assert (∀ u, u ∈ live_set self w → u = self) as Hself.
  { intros u Hu. apply AvailableNodes_elem_entry in Hu as [d Hd].
    destruct (decide (u = self)) as [|Hne]; [done|].
    unfold after_heartbeat in Hd.
    rewrite entry_Ledger_Add_ne in Hd by congruence.
    unfold entry in Hd. cbn in Hd. by rewrite Hnone in Hd. }
  assert (NoDup (live_set self w)) as Hnd.
  { unfold live_set. rewrite AvailableNodes_run. cbn [fst].
    eapply sublist_NoDup; [|apply live_keys_sublist].
    apply (NoDup_fst_map_to_list
             (default ∅ (storage (after_heartbeat self w) !! HealthCheckKey))). }
  assert (live_set self w = [] ∨ live_set self w = [self]) as Hcases.
  { destruct (live_set self w) as [|u [|u' rest]]; [by left| |].
    - right. f_equal. apply Hself. by left.
    - exfalso. apply NoDup_cons in Hnd as [Hnot _]. apply Hnot.
      rewrite (Hself u) by (by left).
      rewrite (Hself u') by (right; by left). by left. }
  split; [done|]. split; [by destruct Hcases as [-> | ->]; cbn; lia|].
  intros nodes. rewrite Alive_tick_issued.
  destruct Hcases as [Hl | Hl]; rewrite Hl; cbn [length].
  - rewrite bool_decide_eq_true_2 by done.
    intros Hin. by elem_of_cases Hin.
  - rewrite bool_decide_eq_false_2 by done.
    destruct (enters_branch self scrubTime t w && bool_decide (Leader [self] = self));
      intros Hin; elem_of_cases Hin; by simplify_eq.
Qed.

End AfterScrub.

(** ** How often a node scrubs *)

(** Two places of [omap f l] come from two places of [l], in the same
    order. *)
Lemma omap_lookup_lt {A B} (f : A → option B) (l : list A) :
  ∀ i j y z,
    (i < j)%nat →
    omap f l !! i = Some y →
    omap f l !! j = Some z →
    ∃ a b x x',
      (a < b)%nat ∧ l !! a = Some x ∧ f x = Some y
      ∧ l !! b = Some x' ∧ f x' = Some z.
Proof.
  induction l as [|x0 l IH]; intros i j y z Hij Hi Hj; [done|].
  cbn [omap list_omap] in Hi, Hj.
  destruct (f x0) as [y0|] eqn:Hx0.
  - destruct j as [|j]; [lia|]. cbn in Hj. destruct i as [|i].
    + cbn in Hi. simplify_eq.
      apply list_elem_of_lookup_2, list_elem_of_omap in Hj
        as (x' & [b Hb]%list_elem_of_lookup_1 & Hx').
      exists 0%nat, (S b), x0, x'. repeat split; (lia || done).
    + cbn in Hi.
      destruct (IH i j y z ltac:(lia) Hi Hj)
        as (a & b & x & x' & ? & ? & ? & ? & ?).
      exists (S a), (S b), x, x'. repeat split; (lia || done).
  - destruct (IH i j y z Hij Hi Hj) as (a & b & x & x' & ? & ? & ? & ? & ?).
    exists (S a), (S b), x, x'. repeat split; (lia || done).
Qed.

Section ScrubRate.
Context `{External}.

(** X17: scrubbing is rate-limited.  Over successive runs on one node
    whose monotonic clock never goes back, whatever the ledger holds at
    each run, the [n]-th entry into the elapsed-interval branch after a
    given one makes its test at least [n] scrub intervals later; deletes
    are issued in that branch only, so no more often. *)
Theorem scrub_checks_spaced (self : string) (scrubTime : Z)
    (snapshots : list (gmap string (gmap string Data))) (w : World)
    (i n k1 k2 : nat) :
  (∀ a b, (a ≤ b)%nat → monoclock a ≤ monoclock b) →
  entering_checks self scrubTime
    (Alive_run self scrubTime snapshots (Alive_start w).1 (Alive_start w).2)
    !! i = Some k1 →
  entering_checks self scrubTime
    (Alive_run self scrubTime snapshots (Alive_start w).1 (Alive_start w).2)
    !! (i + n)%nat = Some k2 →
  monoclock k1 + Z.of_nat n * scrubTime ≤ monoclock k2.
Proof.
  intros Hmono Hi. revert k2.
  induction n as [|n IH]; intros k2 Hn.
  - rewrite Nat.add_0_r in Hn. simplify_eq. lia.
  - destruct (lookup_lt_is_Some_2
                (entering_checks self scrubTime
                   (Alive_run self scrubTime snapshots (Alive_start w).1
                      (Alive_start w).2))
                (i + n)%nat) as [k' Hk'];
      [apply lookup_lt_Some in Hn; lia|].
    specialize (IH k' Hk').
    destruct (omap_lookup_lt _ _ (i + n)%nat (i + S n)%nat k' k2
                ltac:(lia) Hk' Hn)
      as (a & b & [ta wa] & [tb wb] & Hab & Ha & Hfa & Hb & Hfb).
    cbn [fst snd] in Hfa, Hfb.
    destruct (enters_branch self scrubTime ta wa) eqn:Hea; [|done].
    destruct (enters_branch self scrubTime tb wb) eqn:Heb; [|done].
    simplify_eq.
    pose proof (Alive_run_spacing self scrubTime snapshots Hmono
                  (readings w) (Alive_start w).2 a b ta wa tb wb
                  ltac:(cbn; lia) Hab Ha Hb Hea Heb) as Hsp.
    pose proof (Hmono (check_reading self wa) (S (check_reading self wa))
                  ltac:(lia)).
    lia.
Qed.

End ScrubRate.

(** ** The copy protocol: length and completion of its runs *)

Lemma copy_step_steps_left l s s' :
  CopyProtocol.invariant s →
  CopyProtocol.step l s = Some s' →
  CopyProgress.steps_left s = S (CopyProgress.steps_left s').
Proof.
  destruct s as [h f b n sf sb r sc cc].
  unfold CopyProtocol.invariant. cbn.
  intros (Hf & Hb & Hn & Hr & Hsc & Hcc & Hh) Hstep.
  destruct l as [| | d | d | | |];
    cbn in Hstep; unfold CopyProtocol.send, CopyProtocol.recv in Hstep;
    try destruct d; cbn in Hstep;
    destruct h, f, b; try destruct n; try case_decide;
    simplify_eq/=; try done; by destruct Hh.
Qed.

Lemma copy_run_steps_left schedule :
  ∀ s s',
    CopyProtocol.invariant s →
    CopyProtocol.run schedule s = Some s' →
    (length schedule + CopyProgress.steps_left s')%nat
    = CopyProgress.steps_left s.
Proof.
  induction schedule as [|l rest IH]; intros s s' Hinv Hrun.
  - by simplify_eq/=.
  - cbn in Hrun. destruct (CopyProtocol.step l s) as [s1|] eqn:Hstep; [|done].
    rewrite (copy_step_steps_left l s s1) by done.
    rewrite <- (IH s1 s'); [cbn; lia | by eapply copy_invariant_step | done].
Qed.

(** X15: every run of the copy protocol is short.  A schedule that the
    three tasks can follow from the start has at most nine steps, and the
    steps taken and the statements still ahead always add up to nine: no
    task repeats a statement, under any interleaving. *)
Theorem copy_run_bounded (schedule : list CopyProtocol.Label)
    (s : CopyProtocol.State) :
  CopyProtocol.run schedule CopyProtocol.init = Some s →
  (length schedule + CopyProgress.steps_left s = 9)%nat
  ∧ (length schedule ≤ 9)%nat.
Proof.
  intros Hrun.
  pose proof (copy_run_steps_left schedule _ _ copy_invariant_init Hrun)
    as Hlen.
  change (CopyProgress.steps_left CopyProtocol.init) with 9%nat in Hlen.
  lia.
Qed.

Lemma copy_started_step l s s' :
  CopyProgress.started s →
  CopyProtocol.step l s = Some s' →
  CopyProgress.started s'.
Proof.
  destruct s as [h f b n sf sb r sc cc].
  unfold CopyProgress.started. cbn. intros Hst Hstep.
  destruct l as [| | d | d | | |];
    cbn in Hstep; unfold CopyProtocol.send, CopyProtocol.recv in Hstep;
    try destruct d; cbn in Hstep;
    destruct h, f, b; try destruct n; try case_decide;
    simplify_eq/=; try done; by destruct Hst.
Qed.

Lemma copy_started_run schedule :
  ∀ s s',
    CopyProgress.started s →
    CopyProtocol.run schedule s = Some s' →
    CopyProgress.started s'.
Proof.
  induction schedule as [|l rest IH]; intros s s' Hst Hrun.
  - by simplify_eq/=.
  - cbn in Hrun. destruct (CopyProtocol.step l s) as [s1|] eqn:Hstep; [|done].
    eapply IH; [|done]. by eapply copy_started_step.
Qed.

Lemma copy_finish_run s :
  CopyProtocol.invariant s →
  CopyProgress.started s →
  CopyProtocol.run (CopyProgress.finish s) s = Some CopyProgress.final.
Proof.
  destruct s as [h f b n sf sb r sc cc].
  unfold CopyProtocol.invariant, CopyProgress.started. cbn.
  intros (Hf & Hb & Hn & Hr & Hsc & Hcc & Hh) Hst.
  destruct h, f, b; cbn in *; subst;
    try (destruct Hh; discriminate); try (destruct Hst; done);
    try done;
    (assert (n = 0 ∨ n = 1 ∨ n = 2)%nat as [-> | [-> | ->]] by lia);
    try lia; reflexivity.
Qed.

(** X16: teardown can always complete, and completes in one way.  From
    every state the three tasks can reach there is a schedule to the state
    in which both copy tasks have returned, the handler has closed both
    endpoints, and one signal is left in the channel; and that state is the
    only reachable one in which no task can take a step. *)
Theorem copy_always_completes (s : CopyProtocol.State) :
  CopyProtocol.reachable s →
  CopyProtocol.run (CopyProgress.finish s) s = Some CopyProgress.final
  ∧ ((∀ l, CopyProtocol.step l s = None) ↔ s = CopyProgress.final).
Proof.
  intros Hreach.
  assert (CopyProgress.started s) as Hst
    by (destruct Hreach as [schedule Hrun];
        by apply (copy_started_run schedule CopyProtocol.init)).
  apply copy_invariant_reachable in Hreach as Hinv.
  pose proof (copy_finish_run s Hinv Hst) as Hrun.
  split; [done|]. split.
  - intros Hstuck. destruct (CopyProgress.finish s) as [|l rest].
    + by simplify_eq/=.
    + cbn in Hrun. by rewrite Hstuck in Hrun.
  - intros -> l. by destruct l as [| | [|] | [|] | | |].
Qed.

(** ** The further properties on the concrete environment *)

(** The heartbeats met in the reverse order, on the stopped clock. *)
Lemma AvailableNodes_range_order_irrelevant_witness :
  (@AvailableNodes_range Demo.frozen (map_to_list Demo.heartbeats) []
     Demo.w_heartbeats).1
  ≡ₚ (@AvailableNodes_range Demo.frozen
        (reverse (map_to_list Demo.heartbeats)) [] Demo.w_heartbeats).1.
Proof.
  apply (@AvailableNodes_range_order_irrelevant Demo.frozen).
  - symmetry. apply reverse_Permutation.
  - reflexivity.
Defined.



(** peerA, alone on an empty ledger, finds itself live. *)
Lemma Alive_tick_self_live_witness :
  "peerA" ∈ @live_set Demo.ticking "peerA" Demo.w_started
  ∧ EvLeader (@live_set Demo.ticking "peerA" Demo.w_started)
    ∈ @issued Demo.ticking _
        (@Alive_tick Demo.ticking "peerA" (2 * time.Minute)
           (@reading Demo.ticking 0)) Demo.w_started.
Proof.
  apply (@Alive_tick_self_live Demo.ticking "peerA" (2 * time.Minute)
           (@reading Demo.ticking 0) Demo.w_started
           (Demo.T0 + 1 * time.Minute)).
  - vm_compute. reflexivity.
  - vm_compute. reflexivity.
  - intros j Hj.
    assert (j = 0)%nat as -> by (vm_compute in Hj; lia).
    vm_compute. reflexivity.
Defined.

(** peerA takes over the service web from the stale claim of peerB. *)
Lemma Publish_tick_converges_witness :
  (∃ d, @entry Demo.frozen "services" "web"
          (@Publish_tick Demo.frozen "peerA" "web"
             (Demo.w_web (VService (types.mkService "peerB" "web")))).2
        = Some d
        ∧ @recorded_owner Demo.frozen d = "peerA")
  ∧ (∀ b k, (b, k) ≠ (ServicesLedgerKey, "web") →
            @entry Demo.frozen b k
              (@Publish_tick Demo.frozen "peerA" "web"
                 (Demo.w_web (VService (types.mkService "peerB" "web")))).2
            = @entry Demo.frozen b k
                (Demo.w_web (VService (types.mkService "peerB" "web"))))
  ∧ readings (@Publish_tick Demo.frozen "peerA" "web"
                (Demo.w_web (VService (types.mkService "peerB" "web")))).2
    = readings (Demo.w_web (VService (types.mkService "peerB" "web"))).
Proof.
  apply (@Publish_tick_converges Demo.frozen "peerA" "web"). reflexivity.
Defined.

(** peerA exposes web, peerB connects to it. *)
Lemma expose_connect_compose_witness :
  (∃ rest,
     @issued Demo.frozen _ (@ConnectHandler Demo.frozen "web" 9%nat)
       (@Grant_tick Demo.frozen "peerB"
          (@Publish_tick Demo.frozen "peerA" "web" Demo.w_none).2).2
     = EvNewStream "peerA" (@ServiceProtocol Demo.frozen) :: rest)
  ∧ (∃ rest,
       @issued Demo.frozen _
         (@ServiceHandler Demo.frozen "web" "127.0.0.1:8080"
            (mkStream 3 "peerB"))
         (@Grant_tick Demo.frozen "peerB"
            (@Publish_tick Demo.frozen "peerA" "web" Demo.w_none).2).2
       = EvDial "127.0.0.1:8080" :: rest).
Proof.
  apply (@expose_connect_compose Demo.frozen "peerA" "peerB" "web"
           "127.0.0.1:8080" "peerA" 9%nat 3%nat Demo.w_none).
  - reflexivity.
  - reflexivity.
  - left. reflexivity.
Defined.

(** The run in which only the first task finishes before teardown has
    seven steps and two statements ahead. *)
Lemma copy_run_bounded_witness :
  (length (CopyProtocol.one_sided CopyProtocol.Fwd)
   + CopyProgress.steps_left
       (default CopyProtocol.init
          (CopyProtocol.run (CopyProtocol.one_sided CopyProtocol.Fwd)
             CopyProtocol.init))
   = 9)%nat
  ∧ (length (CopyProtocol.one_sided CopyProtocol.Fwd) ≤ 9)%nat.
Proof.
  apply (copy_run_bounded (CopyProtocol.one_sided CopyProtocol.Fwd)).
  reflexivity.
Defined.

(** After that run the first task's peer can still return and send. *)
Lemma copy_always_completes_witness :
  CopyProtocol.run
    (CopyProgress.finish
       (default CopyProtocol.init
          (CopyProtocol.run (CopyProtocol.one_sided CopyProtocol.Fwd)
             CopyProtocol.init)))
    (default CopyProtocol.init
       (CopyProtocol.run (CopyProtocol.one_sided CopyProtocol.Fwd)
          CopyProtocol.init))
  = Some CopyProgress.final.
Proof.
  apply (proj1 (copy_always_completes _
                  (ex_intro _ (CopyProtocol.one_sided CopyProtocol.Fwd)
                     eq_refl))).
Defined.

(** The two scrubs of [Demo.scrub_run] are tested at readings 3 and 7. *)
Lemma scrub_checks_spaced_witness :
  @monoclock Demo.ticking 3 + Z.of_nat 1 * (2 * time.Minute)
  ≤ @monoclock Demo.ticking 7.
Proof.
  apply (@scrub_checks_spaced Demo.ticking "peerA" (2 * time.Minute)
           [∅; ∅] Demo.w_empty 0%nat 1%nat 3%nat 7%nat).
  - exact ticking_monotone.
  - vm_compute. reflexivity.
  - vm_compute. reflexivity.
Defined.

(** peerA starts on an empty ledger. *)
Lemma Alive_tick_after_scrub_witness :
  (∀ u, u ∈ @live_set Demo.ticking "peerA" Demo.w_started → u = "peerA")
  ∧ (length (@live_set Demo.ticking "peerA" Demo.w_started) ≤ 1)%nat
  ∧ (∀ nodes,
       EvLeader nodes
       ∈ @issued Demo.ticking _
           (@Alive_tick Demo.ticking "peerA" (2 * time.Minute)
              (@reading Demo.ticking 0)) Demo.w_started →
       nodes = ["peerA"]).
Proof.
  apply (@Alive_tick_after_scrub Demo.ticking "peerA" (2 * time.Minute)
           (@reading Demo.ticking 0) Demo.w_started).
  reflexivity.
Defined.
